(** * SIMUL8: the simulation engine of [app.js]

    A shallow embedding of the six simulations of [app.js] and of the
    analytic chart branches, with the properties of the specification
    stated over them.

    Numbers.  A JavaScript number is idealised as a real number: rounding
    is not modelled.  [a / b] is the division of [R] wherever a guard of
    the source excludes [b = 0] on that path or [b] is a non-zero
    constant.  Every other division of the source is the partial [a /? b]:
    JavaScript yields [NaN] (for [0/0]) or an infinity there, the model
    yields [None], and a tick that meets such a division has no finite
    state to return.

    Scheduling.  [requestAnimationFrame(f)] queues one call of [f]; each
    session counts the calls it has made in [requested].  A frame of the
    browser runs the queued callback ([step], or [timer] for the field
    view), which queues the next one only while the session runs.

    Rendering.  Calls on the canvas context do not touch the simulation
    state and are left out; what [draw] does to the state (the trace of
    the circular motion) is kept. *)

From Stdlib Require Import Reals Lra Lia List Bool Arith.
Import ListNotations.

Open Scope R_scope.

(** ** JavaScript helpers *)

(** The result of a division whose divisor may be zero. *)
Definition jsdiv (a b : R) : option R :=
  if Req_dec_T b 0 then None else Some (a / b).

Infix "/?" := jsdiv (at level 40, left associativity).

(** A small error monad for the ticks that divide. *)
Definition bind {A B : Type} (m : option A) (k : A -> option B) : option B :=
  match m with
  | Some a => k a
  | None => None
  end.

Notation "x <- m ;; k" := (bind m (fun x => k))
  (at level 61, m at next level, right associativity).

(** [Math.hypot(dx, dy)]. *)
Definition hypot (dx dy : R) : R := sqrt (dx * dx + dy * dy).

(** [v || d] for a property [v] that may be [undefined]: [undefined] and
    [0] are falsy. *)
Definition js_or (v : option R) (d : R) : R :=
  match v with
  | Some x => if Req_dec_T x 0 then d else x
  | None => d
  end.

(** The fixed step [0.016] passed to every [step]. *)
Definition dt : R := 0.016.

(** [canvas.width] and [canvas.height]. *)
Record Canvas := mkCanvas { width : R; height : R }.

(** [resizeCanvas]: the canvas follows its wrapper, less 24 pixels, and
    is never smaller than 300 by 360. *)
Definition resizeCanvas (clientWidth clientHeight : R) : Canvas :=
  mkCanvas (Rmax 300 (clientWidth - 24)) (Rmax 360 (clientHeight - 24)).

(** ** Collision (two balls): [collisionSim] *)

Module Collision.

(** [params] of the collision: [m1] and [m2] are read unguarded by
    [placeInitial]; the other properties are read through [||] or
    compared with [undefined]. *)
Record Params := mkParams {
  m1 : R; m2 : R;
  v1 : option R; v2 : option R;
  r1 : option R; r2 : option R;
  e : option R
}.

Record Ball := mkBall { x : R; y : R; vx : R; vy : R; r : R; m : R }.

Record State := mkState {
  ball1 : Ball; ball2 : Ball; running : bool; requested : nat
}.

Definition pxScale : R := 20.

Definition placeInitial (c : Canvas) (p : Params) : Ball * Ball :=
  (mkBall (width c * 0.25) (height c / 2) (js_or (v1 p) 0 * pxScale) 0
          (js_or (r1 p) 20) (m1 p),
   mkBall (width c * 0.75) (height c / 2) (js_or (v2 p) 0 * pxScale) 0
          (js_or (r2 p) 20) (m2 p)).

(** The Euler step at the head of [update]. *)
Definition integrate (d : R) (b : Ball) : Ball :=
  mkBall (x b + vx b * d) (y b + vy b * d) (vx b) (vy b) (r b) (m b).

(** The four wall tests of [update], in the order of the source; each
    reads the ball as the previous one left it. *)
Definition bounce (c : Canvas) (b : Ball) : Ball :=
  let b := if Rlt_dec (x b - r b) 0
           then mkBall (r b) (y b) (vx b * -1) (vy b) (r b) (m b) else b in
  let b := if Rlt_dec (width c) (x b + r b)
           then mkBall (width c - r b) (y b) (vx b * -1) (vy b) (r b) (m b)
           else b in
  let b := if Rlt_dec (y b - r b) 0
           then mkBall (x b) (r b) (vx b) (vy b * -1) (r b) (m b) else b in
  let b := if Rlt_dec (height c) (y b + r b)
           then mkBall (x b) (height c - r b) (vx b) (vy b * -1) (r b) (m b)
           else b in
  b.

(** [Math.max(0, Math.min(1, params.e!==undefined?params.e:1))]. *)
Definition restitution (p : Params) : R :=
  Rmax 0 (Rmin 1 (match e p with Some v => v | None => 1 end)).

(** The 1-D collision with restitution of the source. *)
Definition v1nPrime (ma mb ee v1n v2n : R) : option R :=
  (ma * v1n + mb * v2n + mb * ee * (v2n - v1n)) /? (ma + mb).

Definition v2nPrime (ma mb ee v1n v2n : R) : option R :=
  (ma * v1n + mb * v2n + ma * ee * (v1n - v2n)) /? (ma + mb).

(** Detection and resolution of the collision between the two balls:
    the last block of [update]. *)
Definition resolve (p : Params) (b1 b2 : Ball) : option (Ball * Ball) :=
  let dx := x b2 - x b1 in
  let dy := y b2 - y b1 in
  let dist := hypot dx dy in
  if Rle_dec dist (r b1 + r b2) then
    nx <- dx /? dist ;;
    ny <- dy /? dist ;;
    let tx := - ny in
    let ty := nx in
    let v1n := vx b1 * nx + vy b1 * ny in
    let v1t := vx b1 * tx + vy b1 * ty in
    let v2n := vx b2 * nx + vy b2 * ny in
    let v2t := vx b2 * tx + vy b2 * ty in
    let ee := restitution p in
    v1n' <- v1nPrime (m b1) (m b2) ee v1n v2n ;;
    v2n' <- v2nPrime (m b1) (m b2) ee v1n v2n ;;
    let overlap := (r b1 + r b2) - dist in
    let correction := overlap / 2 in
    Some (mkBall (x b1 - nx * correction) (y b1 - ny * correction)
                 (v1n' * nx + v1t * tx) (v1n' * ny + v1t * ty)
                 (r b1) (m b1),
          mkBall (x b2 + nx * correction) (y b2 + ny * correction)
                 (v2n' * nx + v2t * tx) (v2n' * ny + v2t * ty)
                 (r b2) (m b2))
  else Some (b1, b2).

Definition update (c : Canvas) (p : Params) (d : R) (b1 b2 : Ball)
  : option (Ball * Ball) :=
  resolve p (bounce c (integrate d b1)) (bounce c (integrate d b2)).

(** The animation callback. *)
Definition step (c : Canvas) (p : Params) (s : State) : option State :=
  if running s then
    bb <- update c p dt (ball1 s) (ball2 s) ;;
    Some (mkState (fst bb) (snd bb) (running s) (S (requested s)))
  else Some s.

Definition start (c : Canvas) (p : Params) (s : State) : State :=
  let bb := placeInitial c p in
  mkState (fst bb) (snd bb) true (S (requested s)).

Definition pause (s : State) : State :=
  mkState (ball1 s) (ball2 s) false (requested s).

Definition reset (c : Canvas) (p : Params) (s : State) : State :=
  let bb := placeInitial c p in
  mkState (fst bb) (snd bb) true (S (requested s)).

(** The body of [collisionSim] up to its [return]. *)
Definition init (c : Canvas) (p : Params) : State :=
  let bb := placeInitial c p in
  mkState (fst bb) (snd bb) true 1.

(** Components of a ball's velocity along a direction and across it. *)
Definition along (nx ny : R) (b : Ball) : R := vx b * nx + vy b * ny.
Definition across (nx ny : R) (b : Ball) : R := vx b * - ny + vy b * nx.

(** Distance between the centres. *)
Definition centre_dist (b1 b2 : Ball) : R :=
  hypot (x b2 - x b1) (y b2 - y b1).


(** Kinetic energy and momentum of a ball, in the units of the canvas. *)
Definition kinetic (b : Ball) : R := m b * (vx b * vx b + vy b * vy b) / 2.
Definition momentum_x (b : Ball) : R := m b * vx b.
Definition momentum_y (b : Ball) : R := m b * vy b.

(** The ball lies within the walls of the canvas. *)
Definition inside (c : Canvas) (b : Ball) : Prop :=
  r b <= x b <= width c - r b /\ r b <= y b <= height c - r b.

End Collision.

(** ** Projectile: [projectileSim] *)

Module Projectile.

Record Params := mkParams { speed : R; angle : R; g : R }.

Record State := mkState { t : R; running : bool; requested : nat }.

(** The physics of [draw]: launch angle in radians, position in metres
    and the vertical velocity of the HUD. *)
Definition a (p : Params) : R := angle p * PI / 180.
Definition vx (p : Params) : R := speed p * cos (a p).
Definition vy0 (p : Params) : R := speed p * sin (a p).
Definition posX (p : Params) (s : State) : R := vx p * t s.
Definition posY (p : Params) (s : State) : R :=
  vy0 p * t s - 0.5 * g p * t s * t s.
Definition vy (p : Params) (s : State) : R := vy0 p - g p * t s.

Definition step (d : R) (s : State) : State :=
  if running s then mkState (t s + d) (running s) (S (requested s)) else s.

Definition start (s : State) : State := mkState 0 true (S (requested s)).

Definition pause (s : State) : State := mkState (t s) false (requested s).

Definition reset (s : State) : State := mkState 0 (running s) (requested s).

(** [let running = true, t = 0; ... start();] *)
Definition init : State := start (mkState 0 true 0).


(** The session after [n] animation callbacks, each called with [0.016]. *)
Fixpoint ticks (n : nat) (s : State) : State :=
  match n with
  | O => s
  | S n' => step dt (ticks n' s)
  end.

End Projectile.

(** ** Pendulum (small angle): [pendulumSim] *)

Module Pendulum.

Record Params := mkParams { length : R; theta0 : R; g : R }.

Record State := mkState {
  theta : R; omega : R; t : R; running : bool; requested : nat
}.

Definition step (p : Params) (d : R) (s : State) : option State :=
  if running s then
    gl <- g p /? length p ;;
    let alpha := - gl * theta s in
    let omega' := omega s + alpha * d in
    let theta' := theta s + omega' * d in
    Some (mkState theta' omega' (t s + d) (running s) (S (requested s)))
  else Some s.

(** The returned object is [{ start(){}, pause(){}, reset(){}, params }]. *)
Definition start (s : State) : State := s.
Definition pause (s : State) : State := s.
Definition reset (s : State) : State := s.

Definition init (p : Params) : State := mkState (theta0 p) 0 0 true 1.


(** The session after [n] animation callbacks, each called with [0.016]. *)
Fixpoint ticks (p : Params) (n : nat) (s : State) : option State :=
  match n with
  | O => Some s
  | S n' => s' <- ticks p n' s ;; step p dt s'
  end.

(** The quadratic form [omega^2 + (g/L) theta^2 - (g/L) dt omega theta]. *)
Definition energy (p : Params) (s : State) : R :=
  omega s * omega s + g p / length p * (theta s * theta s)
  - g p / length p * dt * (omega s * theta s).

End Pendulum.

(** ** Spring-mass: [springSim] *)

Module Spring.

Record Params := mkParams { k : R; m : R; x0 : R }.

Record State := mkState {
  x : R; v : R; t : R; running : bool; requested : nat
}.

Definition step (p : Params) (d : R) (s : State) : option State :=
  if running s then
    km <- k p /? m p ;;
    let a := - km * x s in
    let v' := v s + a * d in
    let x' := x s + v' * d in
    Some (mkState x' v' (t s + d) (running s) (S (requested s)))
  else Some s.

Definition start (s : State) : State := s.
Definition pause (s : State) : State := s.
Definition reset (s : State) : State := s.

Definition init (p : Params) : State := mkState (x0 p) 0 0 true 1.


(** The session after [n] animation callbacks, each called with [0.016]. *)
Fixpoint ticks (p : Params) (n : nat) (s : State) : option State :=
  match n with
  | O => Some s
  | S n' => s' <- ticks p n' s ;; step p dt s'
  end.

(** The quadratic form [v^2 + (k/m) x^2 - (k/m) dt v x]. *)
Definition energy (p : Params) (s : State) : R :=
  v s * v s + k p / m p * (x s * x s) - k p / m p * dt * (v s * x s).

End Spring.

(** ** Circular motion: [circularSim] *)

Module Circular.

Record Params := mkParams { radius : R; angularSpeed : R }.

Definition Point : Type := R * R.

Record State := mkState {
  angle : R; trace : list Point; running : bool; requested : nat
}.

Definition maxTrace : nat := 120.

(** The radius drawn: [Math.max(20, Math.min(Math.min(W,H)/2 - 40,
    params.radius))]. *)
Definition r (c : Canvas) (p : Params) : R :=
  Rmax 20 (Rmin (Rmin (width c) (height c) / 2 - 40) (radius p)).

(** The current point computed by [draw]. *)
Definition point (c : Canvas) (p : Params) (ang : R) : Point :=
  (width c / 2 + r c p * cos ang, height c / 2 + r c p * sin ang).

(** [trace.push({x,y}); if(trace.length > maxTrace) trace.shift();] *)
Definition push (pt : Point) (tr : list Point) : list Point :=
  let tr' := tr ++ [pt] in
  if (maxTrace <? List.length tr')%nat then tl tr' else tr'.

(** What [draw] does to the state. *)
Definition draw (c : Canvas) (p : Params) (s : State) : State :=
  mkState (angle s) (push (point c p (angle s)) (trace s))
          (running s) (requested s).

Definition step (c : Canvas) (p : Params) (s : State) : State :=
  if running s then
    let s1 := draw c p (mkState (angle s + angularSpeed p * 0.016)
                                (trace s) (running s) (requested s)) in
    mkState (angle s1) (trace s1) (running s1) (S (requested s1))
  else s.

Definition start (s : State) : State :=
  mkState (angle s) (trace s) true (S (requested s)).

Definition pause (s : State) : State :=
  mkState (angle s) (trace s) false (requested s).

Definition reset (c : Canvas) (p : Params) (s : State) : State :=
  draw c p (mkState 0 [] (running s) (requested s)).

Definition init : State := start (mkState 0 [] true 0).

(** The session after [n] animation callbacks. *)
Fixpoint ticks (c : Canvas) (p : Params) (n : nat) (s : State) : State :=
  match n with
  | O => s
  | S n' => step c p (ticks c p n' s)
  end.

(** What the user and the browser can do to a session. *)
Inductive Event := Tick | Start | Pause | Reset.

Definition apply (c : Canvas) (p : Params) (s : State) (ev : Event) : State :=
  match ev with
  | Tick => step c p s
  | Start => start s
  | Pause => pause s
  | Reset => reset c p s
  end.

Definition run (c : Canvas) (p : Params) (evs : list Event) (s : State)
  : State := fold_left (apply c p) evs s.

(** The point pushed by the tick of index [k], ticks counted from [0]
    on a fresh session. *)
Definition recorded (c : Canvas) (p : Params) (k : nat) : Point :=
  point c p (angle (ticks c p (S k) init)).


(** The point lies on the guide circle of [draw]. *)
Definition on_circle (c : Canvas) (p : Params) (pt : Point) : Prop :=
  (fst pt - width c / 2) * (fst pt - width c / 2)
  + (snd pt - height c / 2) * (snd pt - height c / 2) = r c p * r c p.

(** The velocity [(vx, vy)] of [draw]. *)
Definition velocity (c : Canvas) (p : Params) (ang : R) : R * R :=
  (- angularSpeed p * r c p * sin ang, angularSpeed p * r c p * cos ang).

(** The offset of the tip of the tangent arrow from the particle:
    [((vx/Math.hypot(vx,vy))*len, (vy/Math.hypot(vx,vy))*len)] with
    [len = Math.min(40, Math.hypot(vx,vy))]. *)
Definition arrow (c : Canvas) (p : Params) (ang : R) : option (R * R) :=
  let vx := fst (velocity c p ang) in
  let vy := snd (velocity c p ang) in
  let len := Rmin 40 (hypot vx vy) in
  ux <- vx /? hypot vx vy ;;
  uy <- vy /? hypot vx vy ;;
  Some (ux * len, uy * len).

End Circular.


(** ** Electric field: [electricSim] *)

Module Electric.

Record Params := mkParams { q1 : option R; q2 : option R }.

Record Charge := mkCharge { x : R; y : R; q : R }.

Record State := mkState {
  charges : list Charge; running : bool; requested : nat
}.

Definition placeCharges (c : Canvas) (p : Params) : list Charge :=
  [ mkCharge (width c * 0.33) (height c * 0.5) (js_or (q1 p) 3);
    mkCharge (width c * 0.67) (height c * 0.5) (js_or (q2 p) (-3)) ].

(** [Math.pow(r2, 1.5)], reached only with [16 <= r2]. *)
Definition pow15 (r2 : R) : R := Rpower r2 1.5.

(** One turn of the loop over the charges in [drawField]: a charge
    nearer than [r2 < 16] is skipped. *)
Definition accumulate (gx gy : R) (E : R * R) (ch : Charge) : R * R :=
  let dx := gx - x ch in
  let dy := gy - y ch in
  let r2 := dx * dx + dy * dy in
  if Rlt_dec r2 16 then E
  else
    let r3 := pow15 r2 in
    (fst E + q ch * dx / r3, snd E + q ch * dy / r3).

(** The field [(Ex, Ey)] that [drawField] computes at the sample point
    [(gx, gy)]. *)
Definition field (chs : list Charge) (gx gy : R) : R * R :=
  fold_left (accumulate gx gy) chs (0, 0).

(** [timer]: the animation callback. *)
Definition timer (s : State) : State :=
  if running s then mkState (charges s) (running s) (S (requested s)) else s.

Definition start (c : Canvas) (p : Params) (s : State) : State :=
  timer (mkState (placeCharges c p) true (requested s)).

Definition pause (s : State) : State :=
  mkState (charges s) false (requested s).

Definition reset (c : Canvas) (p : Params) (s : State) : State :=
  mkState (placeCharges c p) (running s) (requested s).

Definition init (c : Canvas) (p : Params) : State :=
  start c p (mkState [] true 0).

End Electric.

(** ** The analytic chart: the [chartEl] branches *)

Module Chart.

(** The query of the chart page after [parseFloat]: each field is
    [parseFloat(params.<key>)], with [None] for [NaN] (the key is absent
    or its text is not a number). *)
Record Query := mkQuery {
  speed : option R; angle : option R;
  length : option R;
  k : option R; m : option R;
  radius : option R; angularSpeed : option R;
  m1 : option R; m2 : option R; v1 : option R; v2 : option R; e : option R;
  q1 : option R; q2 : option R
}.

(** A query with no key. *)
Definition empty : Query :=
  mkQuery None None None None None None None None None None None None
          None None.

(** *** [sim==='projectile'] *)

Definition proj_u (qy : Query) : R := js_or (speed qy) 25.
Definition proj_a (qy : Query) : R := js_or (angle qy) 45 * PI / 180.
Definition proj_g : R := 9.81.

Definition proj_T (qy : Query) : R := 2 * proj_u qy * sin (proj_a qy) / proj_g.
Definition proj_range (qy : Query) : R :=
  proj_u qy * proj_u qy * sin (2 * proj_a qy) / proj_g.
Definition proj_height (qy : Query) : R :=
  proj_u qy * proj_u qy * sin (proj_a qy) * sin (proj_a qy) / (2 * proj_g).

(** The plotted [vy] of sample [i], [0 <= i <= 60]. *)
Definition proj_vy (qy : Query) (i : nat) : R :=
  let t := INR i * (proj_T qy / 60) in
  proj_u qy * sin (proj_a qy) - proj_g * t.

Definition proj_series (qy : Query) : list R :=
  map (proj_vy qy) (seq 0 61).

(** *** [sim==='pendulum'], [sim==='spring'], [sim==='circular'] *)

Definition pend_T (qy : Query) : R :=
  2 * PI * sqrt (js_or (length qy) 1.6 / 9.81).

Definition spring_omega (qy : Query) : R :=
  sqrt (js_or (k qy) 50 / js_or (m qy) 1.5).

Definition circ_T (qy : Query) : R := 2 * PI / js_or (angularSpeed qy) 1.2.

(** *** [sim==='collision'] *)

Definition coll_m1 (qy : Query) : R := js_or (m1 qy) 2.
Definition coll_m2 (qy : Query) : R := js_or (m2 qy) 1.
Definition coll_u1 (qy : Query) : R := js_or (v1 qy) 3.
Definition coll_u2 (qy : Query) : R := js_or (v2 qy) (-1).
Definition coll_e (qy : Query) : R := js_or (e qy) 1.

Definition v1p (qy : Query) : option R :=
  (coll_m1 qy * coll_u1 qy + coll_m2 qy * coll_u2 qy
   + coll_m2 qy * coll_e qy * (coll_u2 qy - coll_u1 qy))
  /? (coll_m1 qy + coll_m2 qy).

Definition v2p (qy : Query) : option R :=
  (coll_m1 qy * coll_u1 qy + coll_m2 qy * coll_u2 qy
   + coll_m1 qy * coll_e qy * (coll_u1 qy - coll_u2 qy))
  /? (coll_m1 qy + coll_m2 qy).

(** *** [sim==='electric'] *)

Definition N : nat := 120.

(** Abscissa of sample [i]: [(i/(N-1))*1.0]. *)
Definition probe_x (i : nat) : R := INR i / INR (N - 1) * 1.0.

Definition cx1 : R := 0.33.
Definition cx2 : R := 0.67.

(** [Emag] of sample [i] for the charges [qa] and [qb]. *)
Definition Emag (qa qb : R) (i : nat) : R :=
  let xx := probe_x i in
  let dx1 := xx - cx1 in
  let dx2 := xx - cx2 in
  let ra := Rabs dx1 in
  let rb := Rabs dx2 in
  let E1 := if Rlt_dec 0.0001 ra then qa / (ra * ra) else 0 in
  let E2 := if Rlt_dec 0.0001 rb then qb / (rb * rb) else 0 in
  Rabs E1 + Rabs E2.

Definition field_series (qy : Query) : list R :=
  map (Emag (js_or (q1 qy) 3) (js_or (q2 qy) (-3))) (seq 0 N).


(** *** More of [sim==='circular'] *)

(** The value of sample [i], [0 <= i <= 120], before [toFixed(3)]:
    [radius * Math.cos(omega*t)] with [t = i*(T/steps)]. *)
Definition circ_x (qy : Query) (i : nat) : R :=
  let t := INR i * (circ_T qy / 120) in
  js_or (radius qy) 100 * cos (js_or (angularSpeed qy) 1.2 * t).

End Chart.

(** ** The specification's field, in its own words *)

Module FieldSpec.

(** [charge * (p - sourcePos) / |p - sourcePos|^3], or nothing for a
    source whose squared distance to [p] is below 16. *)
Definition contribution (ch : Electric.Charge) (px py : R) : R * R :=
  let dx := px - Electric.x ch in
  let dy := py - Electric.y ch in
  let d := hypot dx dy in
  if Rlt_dec (d * d) 16 then (0, 0)
  else (Electric.q ch * dx / (d * d * d), Electric.q ch * dy / (d * d * d)).

(** The vector sum over the two sources. *)
Definition superposition (c1 c2 : Electric.Charge) (px py : R) : R * R :=
  (fst (contribution c1 px py) + fst (contribution c2 px py),
   snd (contribution c1 px py) + snd (contribution c2 px py)).

(** The 1-D probe: [|q1|/r1^2 + |q2|/r2^2]. *)
Definition probe (qa qb : R) (xx : R) : R :=
  Rabs qa / (Rabs (xx - Chart.cx1) * Rabs (xx - Chart.cx1))
  + Rabs qb / (Rabs (xx - Chart.cx2) * Rabs (xx - Chart.cx2)).

End FieldSpec.


(** ** Concrete sessions used below *)

Module Samples.

(** A canvas of 320 by 360 pixels. *)
Definition canvas : Canvas := mkCanvas 320 360.

(** [simParamsPreset.collision]. *)
Definition collision : Collision.Params :=
  Collision.mkParams 2 1 (Some 3) (Some (-1)) (Some 20) (Some 20) (Some 1).

(** The preset with [v1 = 500] and [v2 = 0]: in one tick the first ball
    covers the 160 pixels that separate the two centres. *)
Definition collision_fast : Collision.Params :=
  Collision.mkParams 2 1 (Some 500) (Some 0) (Some 20) (Some 20) (Some 1).

(** Two balls overlapping by 10 pixels on the track. *)
Definition left_ball : Collision.Ball := Collision.mkBall 100 180 60 0 20 2.
Definition right_ball : Collision.Ball := Collision.mkBall 130 180 (-20) 0 20 1.

(** [simParamsPreset.projectile], [.pendulum], [.spring], [.circular]. *)
Definition projectile : Projectile.Params := Projectile.mkParams 25 45 9.81.
Definition pendulum : Pendulum.Params := Pendulum.mkParams 1.6 0.5 9.81.
Definition spring : Spring.Params := Spring.mkParams 50 1.5 0.6.
Definition circular : Circular.Params := Circular.mkParams 100 1.2.

(** The chart query [sim=collision&m1=2&m2=1&v1=3&v2=-1&e=...]. *)
Definition collision_query (e : R) : Chart.Query :=
  Chart.mkQuery None None None None None None None
                (Some 2) (Some 1) (Some 3) (Some (-1)) (Some e) None None.

(** The chart query [sim=projectile&speed=25&angle=...]. *)
Definition projectile_query (angle : R) : Chart.Query :=
  Chart.mkQuery (Some 25) (Some angle) None None None None None
                None None None None None None None.

End Samples.

(** * Properties *)

(** ** Arithmetic of the helpers *)

Lemma jsdiv_nz (a b : R) : b <> 0 -> a /? b = Some (a / b).
Proof.
  intros Hb. unfold jsdiv. destruct (Req_dec_T b 0) as [E | _]; [contradiction | reflexivity].
Qed.

Lemma jsdiv_zero (a : R) : a /? 0 = None.
Proof.
  unfold jsdiv. destruct (Req_dec_T 0 0) as [_ | N]; [reflexivity | now elim N].
Qed.

Lemma hypot_nonneg (dx dy : R) : 0 <= hypot dx dy.
Proof. apply sqrt_pos. Qed.

Lemma hypot_sqr (dx dy : R) : hypot dx dy * hypot dx dy = dx * dx + dy * dy.
Proof. unfold hypot. apply sqrt_sqrt. nra. Qed.

Lemma hypot_of_sqr (dx dy d : R) :
  0 <= d -> d * d = dx * dx + dy * dy -> hypot dx dy = d.
Proof.
  intros Hd Hsq. unfold hypot. rewrite <- Hsq. now apply sqrt_square.
Qed.

Lemma hypot_origin : hypot 0 0 = 0.
Proof. apply hypot_of_sqr; lra. Qed.

(** The normal of the collision is a unit vector. *)
Lemma unit_normal (dx dy : R) :
  0 < hypot dx dy ->
  dx / hypot dx dy * (dx / hypot dx dy) + dy / hypot dx dy * (dy / hypot dx dy) = 1.
Proof.
  intros Hpos. pose proof (hypot_sqr dx dy) as Hsq.
  set (d := hypot dx dy) in *.
  assert (Hd : d <> 0) by lra.
  replace (dx / d * (dx / d) + dy / d * (dy / d))
    with ((dx * dx + dy * dy) / (d * d)) by (field; exact Hd).
  rewrite <- Hsq. field. exact Hd.
Qed.

Lemma Rmax_Rmin_clamp (v : R) : 0 <= Rmax 0 (Rmin 1 v) <= 1.
Proof.
  unfold Rmax, Rmin.
  destruct (Rle_dec 1 v); destruct (Rle_dec 0 _); lra.
Qed.

(** ** The collision resolver *)

Section Resolver.

Import Collision.

Variable p : Params.
Variables b1 b2 : Ball.

Let d := centre_dist b1 b2.
Let nx := (x b2 - x b1) / d.
Let ny := (y b2 - y b1) / d.
Let ee := restitution p.
Let v1n := along nx ny b1.
Let v2n := along nx ny b2.

(** What [resolve] returns when the balls overlap at a positive
    distance and the masses do not cancel. *)
Lemma resolve_overlap :
  0 < d -> d <= r b1 + r b2 -> m b1 + m b2 <> 0 ->
  resolve p b1 b2 =
  Some (mkBall (x b1 - nx * ((r b1 + r b2 - d) / 2))
               (y b1 - ny * ((r b1 + r b2 - d) / 2))
               ((m b1 * v1n + m b2 * v2n + m b2 * ee * (v2n - v1n))
                / (m b1 + m b2) * nx + across nx ny b1 * - ny)
               ((m b1 * v1n + m b2 * v2n + m b2 * ee * (v2n - v1n))
                / (m b1 + m b2) * ny + across nx ny b1 * nx)
               (r b1) (m b1),
        mkBall (x b2 + nx * ((r b1 + r b2 - d) / 2))
               (y b2 + ny * ((r b1 + r b2 - d) / 2))
               ((m b1 * v1n + m b2 * v2n + m b1 * ee * (v1n - v2n))
                / (m b1 + m b2) * nx + across nx ny b2 * - ny)
               ((m b1 * v1n + m b2 * v2n + m b1 * ee * (v1n - v2n))
                / (m b1 + m b2) * ny + across nx ny b2 * nx)
               (r b2) (m b2)).
Proof.
  intros Hpos Hle Hm.
  unfold resolve, v1nPrime, v2nPrime.
  fold (centre_dist b1 b2). fold d.
  destruct (Rle_dec d (r b1 + r b2)) as [_ | N]; [| contradiction].
  assert (Hd : d <> 0) by lra.
  rewrite !(jsdiv_nz _ d Hd). cbn [bind].
  rewrite !(jsdiv_nz _ _ Hm). cbn [bind].
  reflexivity.
Qed.

End Resolver.

(** C1. When two balls of positive mass overlap at a positive distance,
    the resolver gives them the normal velocity components
    [(m1 v1n + m2 v2n + m2 e (v2n - v1n)) / (m1 + m2)] and
    [(m1 v1n + m2 v2n + m1 e (v1n - v2n)) / (m1 + m2)], where [e] is the
    restitution in force (the supplied one when it lies in [0,1]), and
    keeps the tangential components.  The momentum along the normal is
    the same before and after for every [e], and so is the kinetic energy
    along the normal when [e = 1]. *)
Theorem resolver_normal_restitution (p : Collision.Params) (b1 b2 : Collision.Ball) :
  0 < Collision.m b1 -> 0 < Collision.m b2 ->
  0 < Collision.centre_dist b1 b2 ->
  Collision.centre_dist b1 b2 <= Collision.r b1 + Collision.r b2 ->
  let nx := (Collision.x b2 - Collision.x b1) / Collision.centre_dist b1 b2 in
  let ny := (Collision.y b2 - Collision.y b1) / Collision.centre_dist b1 b2 in
  let e := Collision.restitution p in
  let m1 := Collision.m b1 in
  let m2 := Collision.m b2 in
  let v1n := Collision.along nx ny b1 in
  let v2n := Collision.along nx ny b2 in
  (forall e0, Collision.e p = Some e0 -> 0 <= e0 <= 1 -> e = e0) /\
  exists b1' b2',
    Collision.resolve p b1 b2 = Some (b1', b2') /\
    Collision.along nx ny b1'
      = (m1 * v1n + m2 * v2n + m2 * e * (v2n - v1n)) / (m1 + m2) /\
    Collision.along nx ny b2'
      = (m1 * v1n + m2 * v2n + m1 * e * (v1n - v2n)) / (m1 + m2) /\
    Collision.across nx ny b1' = Collision.across nx ny b1 /\
    Collision.across nx ny b2' = Collision.across nx ny b2 /\
    m1 * Collision.along nx ny b1' + m2 * Collision.along nx ny b2'
      = m1 * v1n + m2 * v2n /\
    (e = 1 ->
     m1 * (Collision.along nx ny b1' * Collision.along nx ny b1') / 2
     + m2 * (Collision.along nx ny b2' * Collision.along nx ny b2') / 2
     = m1 * (v1n * v1n) / 2 + m2 * (v2n * v2n) / 2).
Proof.
  intros Hm1 Hm2 Hpos Hle nx ny e m1 m2 v1n v2n.
  assert (Hm : m1 + m2 <> 0) by (unfold m1, m2; lra).
  pose proof (unit_normal _ _ Hpos) as Hunit.
  fold (Collision.centre_dist b1 b2) in Hunit. fold nx ny in Hunit.
  split.
  { intros e0 He0 Hrange. unfold e, Collision.restitution. rewrite He0.
    unfold Rmax, Rmin.
    destruct (Rle_dec 1 e0); destruct (Rle_dec 0 _); lra. }
  eexists; eexists. split.
  { apply resolve_overlap; assumption. }
  fold nx ny e m1 m2 v1n v2n.
  unfold Collision.along, Collision.across. cbn [Collision.vx Collision.vy].
  fold (Collision.along nx ny b1) (Collision.along nx ny b2).
  fold v1n v2n.
  set (t1 := Collision.vx b1 * - ny + Collision.vy b1 * nx).
  set (t2 := Collision.vx b2 * - ny + Collision.vy b2 * nx).
  set (A1 := (m1 * v1n + m2 * v2n + m2 * e * (v2n - v1n)) / (m1 + m2)).
  set (A2 := (m1 * v1n + m2 * v2n + m1 * e * (v1n - v2n)) / (m1 + m2)).
  assert (N1 : (A1 * nx + t1 * - ny) * nx + (A1 * ny + t1 * nx) * ny = A1).
  { transitivity (A1 * (nx * nx + ny * ny)); [ring | rewrite Hunit; ring]. }
  assert (N2 : (A2 * nx + t2 * - ny) * nx + (A2 * ny + t2 * nx) * ny = A2).
  { transitivity (A2 * (nx * nx + ny * ny)); [ring | rewrite Hunit; ring]. }
  assert (T1 : (A1 * nx + t1 * - ny) * - ny + (A1 * ny + t1 * nx) * nx = t1).
  { transitivity (t1 * (nx * nx + ny * ny)); [ring | rewrite Hunit; ring]. }
  assert (T2 : (A2 * nx + t2 * - ny) * - ny + (A2 * ny + t2 * nx) * nx = t2).
  { transitivity (t2 * (nx * nx + ny * ny)); [ring | rewrite Hunit; ring]. }
  rewrite N1, N2, T1, T2.
  repeat split; try reflexivity.
  - unfold A1, A2. field. exact Hm.
  - intros He. unfold A1, A2. rewrite He. field. exact Hm.
Qed.

(** C10. When the collision branch runs at a positive centre distance
    [d <= r1 + r2] (the masses not cancelling, so that the velocities are
    finite), the first ball is moved by [(r1 + r2 - d) / 2] against the
    normal and the second by the same amount along it, and the centre
    distance after the resolution is exactly [r1 + r2]. *)
Theorem resolver_leaves_balls_touching (p : Collision.Params) (b1 b2 : Collision.Ball) :
  Collision.m b1 + Collision.m b2 <> 0 ->
  0 < Collision.centre_dist b1 b2 ->
  Collision.centre_dist b1 b2 <= Collision.r b1 + Collision.r b2 ->
  let d := Collision.centre_dist b1 b2 in
  let nx := (Collision.x b2 - Collision.x b1) / d in
  let ny := (Collision.y b2 - Collision.y b1) / d in
  let half := (Collision.r b1 + Collision.r b2 - d) / 2 in
  exists b1' b2',
    Collision.resolve p b1 b2 = Some (b1', b2') /\
    Collision.x b1' = Collision.x b1 - nx * half /\
    Collision.y b1' = Collision.y b1 - ny * half /\
    Collision.x b2' = Collision.x b2 + nx * half /\
    Collision.y b2' = Collision.y b2 + ny * half /\
    0 <= half /\
    Collision.centre_dist b1' b2' = Collision.r b1 + Collision.r b2.
Proof.
  intros Hm Hpos Hle d nx ny half.
  pose proof (unit_normal _ _ Hpos) as Hunit.
  fold (Collision.centre_dist b1 b2) in Hunit. fold d nx ny in Hunit.
  eexists; eexists. split.
  { apply resolve_overlap; assumption. }
  fold d nx ny half. cbn [Collision.x Collision.y].
  repeat split; try reflexivity.
  - unfold half. fold d in Hle. lra.
  - unfold Collision.centre_dist. cbn [Collision.x Collision.y].
    fold d in Hpos, Hle.
    assert (Hd : d <> 0) by lra.
    assert (Hx : Collision.x b2 - Collision.x b1 = nx * d)
      by (unfold nx; field; exact Hd).
    assert (Hy : Collision.y b2 - Collision.y b1 = ny * d)
      by (unfold ny; field; exact Hd).
    set (rr := Collision.r b1 + Collision.r b2) in *.
    apply hypot_of_sqr; [lra |].
    replace (Collision.x b2 + nx * half - (Collision.x b1 - nx * half))
      with (nx * rr) by (unfold half; lra).
    replace (Collision.y b2 + ny * half - (Collision.y b1 - ny * half))
      with (ny * rr) by (unfold half; lra).
    transitivity (rr * rr * (nx * nx + ny * ny)); [rewrite Hunit |]; ring.
Qed.

Lemma sample_balls_distance :
  Collision.centre_dist Samples.left_ball Samples.right_ball = 30.
Proof.
  unfold Collision.centre_dist. apply hypot_of_sqr; cbn; lra.
Qed.

(** The momentum of the two sample balls along the track, [2 * 60 - 20],
    survives the resolution. *)
Lemma resolver_normal_restitution_witness :
  exists b1' b2',
    Collision.resolve Samples.collision Samples.left_ball Samples.right_ball
      = Some (b1', b2') /\
    2 * Collision.along 1 0 b1' + 1 * Collision.along 1 0 b2' = 100.
Proof.
  pose proof sample_balls_distance as Hd.
  destruct (resolver_normal_restitution Samples.collision
              Samples.left_ball Samples.right_ball)
    as [_ (b1' & b2' & Hres & _ & _ & _ & _ & Hmom & _)].
  - cbn; lra.
  - cbn; lra.
  - rewrite Hd; lra.
  - rewrite Hd; cbn; lra.
  - exists b1', b2'. split; [exact Hres |].
    rewrite Hd in Hmom. cbn [Samples.left_ball Samples.right_ball
      Collision.x Collision.y Collision.m] in Hmom.
    replace ((130 - 100) / 30) with 1 in Hmom by lra.
    replace ((180 - 180) / 30) with 0 in Hmom by lra.
    rewrite Hmom. unfold Collision.along. cbn. lra.
Defined.

(** After the resolution the two sample balls are 40 pixels apart. *)
Lemma resolver_leaves_balls_touching_witness :
  exists b1' b2',
    Collision.resolve Samples.collision Samples.left_ball Samples.right_ball
      = Some (b1', b2') /\
    Collision.centre_dist b1' b2' = 40.
Proof.
  pose proof sample_balls_distance as Hd.
  destruct (resolver_leaves_balls_touching Samples.collision
              Samples.left_ball Samples.right_ball)
    as (b1' & b2' & Hres & _ & _ & _ & _ & _ & Htouch).
  - cbn; lra.
  - rewrite Hd; lra.
  - rewrite Hd; cbn; lra.
  - exists b1', b2'. split; [exact Hres |].
    rewrite Htouch. cbn. lra.
Defined.

(** ** Restitution: the clamp of the tick and the chart *)

Lemma js_or_none (d : R) : js_or None d = d.
Proof. reflexivity. Qed.

Lemma js_or_nonzero (x d : R) : x <> 0 -> js_or (Some x) d = x.
Proof.
  intros Hx. unfold js_or. destruct (Req_dec_T x 0); [contradiction | reflexivity].
Qed.

Lemma js_or_zero (d : R) : js_or (Some 0) d = d.
Proof.
  unfold js_or. destruct (Req_dec_T 0 0) as [_ | N]; [reflexivity | now elim N].
Qed.

Lemma restitution_range (p : Collision.Params) :
  0 <= Collision.restitution p <= 1.
Proof. apply Rmax_Rmin_clamp. Qed.

Lemma restitution_above (p : Collision.Params) (v : R) :
  Collision.e p = Some v -> 1 <= v -> Collision.restitution p = 1.
Proof.
  intros He Hv. unfold Collision.restitution. rewrite He.
  rewrite Rmin_left by exact Hv. apply Rmax_right. lra.
Qed.

Lemma restitution_below (p : Collision.Params) (v : R) :
  Collision.e p = Some v -> v <= 0 -> Collision.restitution p = 0.
Proof.
  intros He Hv. unfold Collision.restitution. rewrite He.
  rewrite Rmin_right by lra. apply Rmax_left. exact Hv.
Qed.

Lemma restitution_inside (p : Collision.Params) (v : R) :
  Collision.e p = Some v -> 0 <= v <= 1 -> Collision.restitution p = v.
Proof.
  intros He Hv. unfold Collision.restitution. rewrite He.
  rewrite Rmin_right by lra. apply Rmax_right. lra.
Qed.

(** The tick reads [params.e] through the clamp only. *)
Lemma update_same_restitution (c : Canvas) (p p' : Collision.Params) (d : R)
      (b1 b2 : Collision.Ball) :
  Collision.restitution p = Collision.restitution p' ->
  Collision.update c p d b1 b2 = Collision.update c p' d b1 b2.
Proof.
  intros H. unfold Collision.update, Collision.resolve. rewrite H. reflexivity.
Qed.

(** In the tick, [e = 1.5] is [e = 1] and [e = -0.3] is [e = 0]. *)
Lemma tick_clamps_restitution (c : Canvas) (d : R) (b1 b2 : Collision.Ball)
      (ma mb : R) (va vb ra rb : option R) :
  let with_e v := Collision.mkParams ma mb va vb ra rb (Some v) in
  Collision.update c (with_e 1.5) d b1 b2 = Collision.update c (with_e 1) d b1 b2 /\
  Collision.update c (with_e (-0.3)) d b1 b2 = Collision.update c (with_e 0) d b1 b2.
Proof.
  intros with_e. split; apply update_same_restitution.
  - rewrite (restitution_above (with_e 1.5) 1.5), (restitution_above (with_e 1) 1);
      first [reflexivity | lra].
  - rewrite (restitution_below (with_e (-0.3)) (-0.3)), (restitution_below (with_e 0) 0);
      first [reflexivity | lra].
Qed.

(** Evaluation of the chart's collision branch on a query that gives
    every key a non-zero number. *)
Lemma chart_collision_values (a b u w ee : R) :
  a <> 0 -> b <> 0 -> u <> 0 -> w <> 0 -> ee <> 0 -> a + b <> 0 ->
  let qy := Chart.mkQuery None None None None None None None
                          (Some a) (Some b) (Some u) (Some w) (Some ee)
                          None None in
  Chart.v1p qy = Some ((a * u + b * w + b * ee * (w - u)) / (a + b)) /\
  Chart.v2p qy = Some ((a * u + b * w + a * ee * (u - w)) / (a + b)).
Proof.
  intros Ha Hb Hu Hw He Hab qy.
  unfold Chart.v1p, Chart.v2p, Chart.coll_m1, Chart.coll_m2, Chart.coll_u1,
    Chart.coll_u2, Chart.coll_e, qy.
  cbn [Chart.m1 Chart.m2 Chart.v1 Chart.v2 Chart.e].
  rewrite !js_or_nonzero by assumption.
  rewrite !jsdiv_nz by assumption. split; reflexivity.
Qed.

(** C2 (chart). The chart's collision branch does not clamp [e]: for
    [m1=2, m2=1, v1=3, v2=-1] it answers [(-1/3, 17/3)] at [e = 1.5] but
    [(1/3, 13/3)] at [e = 1], and [31/15] at [e = -0.3] where the clamp
    of the tick would give the [5/3] of [e = 0]. *)
Theorem chart_restitution_not_clamped :
  Chart.v1p (Samples.collision_query 1.5) = Some (-1 / 3) /\
  Chart.v2p (Samples.collision_query 1.5) = Some (17 / 3) /\
  Chart.v1p (Samples.collision_query 1) = Some (1 / 3) /\
  Chart.v2p (Samples.collision_query 1) = Some (13 / 3) /\
  Chart.v1p (Samples.collision_query (-0.3)) = Some (31 / 15) /\
  Chart.v2p (Samples.collision_query (-0.3)) = Some (13 / 15) /\
  Chart.v1p (Samples.collision_query 1.5) <> Chart.v1p (Samples.collision_query 1).
Proof.
  destruct (chart_collision_values 2 1 3 (-1) 1.5) as [A1 A2]; try lra.
  destruct (chart_collision_values 2 1 3 (-1) 1) as [B1 B2]; try lra.
  destruct (chart_collision_values 2 1 3 (-1) (-0.3)) as [C1 C2]; try lra.
  unfold Samples.collision_query.
  rewrite A1, A2, B1, B2, C1, C2.
  repeat split; try (f_equal; lra).
  intros H. injection H as H. lra.
Qed.

(** ** Defaults of the chart *)

(** The default stands in for an absent or non-numeric key, and a
    non-zero number is used as given. *)
Lemma chart_defaults :
  Chart.proj_u Chart.empty = 25 /\
  Chart.proj_a Chart.empty = 45 * PI / 180 /\
  Chart.proj_g = 9.81 /\
  (forall u ang, u <> 0 -> ang <> 0 ->
     let qy := Chart.mkQuery (Some u) (Some ang) None None None None None
                             None None None None None None None in
     Chart.proj_u qy = u /\ Chart.proj_a qy = ang * PI / 180).
Proof.
  split; [reflexivity |]. split; [reflexivity |]. split; [reflexivity |].
  intros u ang Hu Hang qy. split.
  - unfold Chart.proj_u, qy. cbn [Chart.speed]. now apply js_or_nonzero.
  - unfold Chart.proj_a, qy. cbn [Chart.angle]. now rewrite js_or_nonzero.
Qed.

(** C9 (zero). A supplied [0] is replaced by the default: [angle=0] is
    charted as 45 degrees, and [e=0] and [v1=0] as [1] and [3], so the
    perfectly inelastic collision [m1=2, m2=1, v1=3, v2=-1, e=0] is
    answered with the elastic [1/3] instead of [5/3]. *)
Theorem chart_zero_replaced_by_default :
  Chart.proj_a (Samples.projectile_query 0) = 45 * PI / 180 /\
  Chart.proj_a (Samples.projectile_query 0) <> 0 * PI / 180 /\
  Chart.coll_e (Samples.collision_query 0) = 1 /\
  Chart.v1p (Samples.collision_query 0) = Some (1 / 3) /\
  Chart.v2p (Samples.collision_query 0) = Some (13 / 3).
Proof.
  assert (Ha : Chart.proj_a (Samples.projectile_query 0) = 45 * PI / 180).
  { unfold Chart.proj_a, Samples.projectile_query. cbn [Chart.angle].
    now rewrite js_or_zero. }
  assert (He : Chart.coll_e (Samples.collision_query 0) = 1).
  { unfold Chart.coll_e, Samples.collision_query. cbn [Chart.e].
    apply js_or_zero. }
  split; [exact Ha |]. split.
  { rewrite Ha. pose proof PI_RGT_0. lra. }
  split; [exact He |].
  unfold Chart.v1p, Chart.v2p. rewrite He.
  unfold Chart.coll_m1, Chart.coll_m2, Chart.coll_u1, Chart.coll_u2,
    Samples.collision_query.
  cbn [Chart.m1 Chart.m2 Chart.v1 Chart.v2].
  rewrite !js_or_nonzero by lra.
  rewrite !jsdiv_nz by lra.
  split; f_equal; lra.
Qed.

(** ** Lifecycle: pause *)

Lemma projectile_pause_stops (d : R) (s : Projectile.State) :
  Projectile.step d (Projectile.pause s) = Projectile.pause s /\
  Projectile.t (Projectile.pause s) = Projectile.t s.
Proof. split; reflexivity. Qed.

Lemma circular_pause_stops (c : Canvas) (p : Circular.Params) (s : Circular.State) :
  Circular.step c p (Circular.pause s) = Circular.pause s /\
  Circular.angle (Circular.pause s) = Circular.angle s /\
  Circular.trace (Circular.pause s) = Circular.trace s.
Proof. repeat split; reflexivity. Qed.

Lemma collision_pause_stops (c : Canvas) (p : Collision.Params) (s : Collision.State) :
  Collision.step c p (Collision.pause s) = Some (Collision.pause s) /\
  Collision.ball1 (Collision.pause s) = Collision.ball1 s /\
  Collision.ball2 (Collision.pause s) = Collision.ball2 s.
Proof. repeat split; reflexivity. Qed.

Lemma electric_pause_stops (s : Electric.State) :
  Electric.timer (Electric.pause s) = Electric.pause s /\
  Electric.charges (Electric.pause s) = Electric.charges s.
Proof. split; reflexivity. Qed.

(** A running pendulum or spring steps whatever [pause] was asked. *)
Lemma pendulum_pause_ignored (p : Pendulum.Params) (d : R) (s : Pendulum.State) :
  Pendulum.step p d (Pendulum.pause s) = Pendulum.step p d s.
Proof. reflexivity. Qed.

Lemma spring_pause_ignored (p : Spring.Params) (d : R) (s : Spring.State) :
  Spring.step p d (Spring.pause s) = Spring.step p d s.
Proof. reflexivity. Qed.

(** The first tick of the preset pendulum. *)
Lemma pendulum_first_tick :
  Pendulum.step Samples.pendulum dt (Pendulum.init Samples.pendulum)
  = Some (Pendulum.mkState 0.4992152 (-0.04905) 0.016 true 2).
Proof.
  unfold Pendulum.step, Pendulum.init, Samples.pendulum, dt.
  cbn [Pendulum.running Pendulum.g Pendulum.length Pendulum.theta
       Pendulum.theta0 Pendulum.omega Pendulum.t Pendulum.requested].
  rewrite jsdiv_nz by lra. cbn [bind].
  f_equal. f_equal; lra.
Qed.

(** C3 (pendulum, spring). [pause()] of the pendulum is empty: the tick
    that follows it moves the preset pendulum from [theta = 0.5] to
    [0.4992152] and its clock to [0.016]; the spring does the same. *)
Theorem pendulum_ticks_after_pause :
  Pendulum.running (Pendulum.pause (Pendulum.init Samples.pendulum)) = true /\
  Pendulum.step Samples.pendulum dt (Pendulum.pause (Pendulum.init Samples.pendulum))
  = Some (Pendulum.mkState 0.4992152 (-0.04905) 0.016 true 2) /\
  Pendulum.theta (Pendulum.init Samples.pendulum) = 0.5 /\
  exists s', Spring.step Samples.spring dt (Spring.pause (Spring.init Samples.spring))
             = Some s' /\ Spring.t s' = 0.016.
Proof.
  split; [reflexivity |]. split; [exact pendulum_first_tick |].
  split; [reflexivity |].
  unfold Spring.step, Spring.pause, Spring.init, Samples.spring, dt.
  cbn [Spring.running Spring.k Spring.m].
  rewrite jsdiv_nz by lra. cbn [bind].
  eexists. split; [reflexivity |]. cbn [Spring.t]. lra.
Qed.

(** ** The collision tick on concrete sessions *)

Lemma bounce_inside (c : Canvas) (b : Collision.Ball) :
  Collision.r b <= Collision.x b -> Collision.x b + Collision.r b <= width c ->
  Collision.r b <= Collision.y b -> Collision.y b + Collision.r b <= height c ->
  Collision.bounce c b = b.
Proof.
  intros H1 H2 H3 H4. unfold Collision.bounce.
  destruct (Rlt_dec (Collision.x b - Collision.r b) 0); [lra |].
  destruct (Rlt_dec (width c) (Collision.x b + Collision.r b)); [lra |].
  destruct (Rlt_dec (Collision.y b - Collision.r b) 0); [lra |].
  destruct (Rlt_dec (height c) (Collision.y b + Collision.r b)); [lra |].
  reflexivity.
Qed.

Lemma resolve_apart (p : Collision.Params) (b1 b2 : Collision.Ball) :
  Collision.r b1 + Collision.r b2 < Collision.centre_dist b1 b2 ->
  Collision.resolve p b1 b2 = Some (b1, b2).
Proof.
  intros H. unfold Collision.resolve. fold (Collision.centre_dist b1 b2).
  destruct (Rle_dec _ _); [lra | reflexivity].
Qed.

(** Coincident centres: the normal is [0/0]. *)
Lemma resolve_coincident (p : Collision.Params) (b1 b2 : Collision.Ball) :
  Collision.x b1 = Collision.x b2 -> Collision.y b1 = Collision.y b2 ->
  0 <= Collision.r b1 + Collision.r b2 ->
  Collision.centre_dist b1 b2 = 0 /\ Collision.resolve p b1 b2 = None.
Proof.
  intros Hx Hy Hr.
  assert (Hd : Collision.centre_dist b1 b2 = 0).
  { unfold Collision.centre_dist. rewrite Hx, Hy.
    replace (Collision.x b2 - Collision.x b2) with 0 by lra.
    replace (Collision.y b2 - Collision.y b2) with 0 by lra.
    apply hypot_origin. }
  split; [exact Hd |].
  unfold Collision.resolve. fold (Collision.centre_dist b1 b2). rewrite Hd.
  destruct (Rle_dec 0 _); [| contradiction].
  rewrite jsdiv_zero. reflexivity.
Qed.

(** The balls of the two sample sessions as [placeInitial] leaves them. *)
Lemma preset_placed :
  Collision.placeInitial Samples.canvas Samples.collision
  = (Collision.mkBall (320 * 0.25) (360 / 2) (3 * 20) 0 20 2,
     Collision.mkBall (320 * 0.75) (360 / 2) (-1 * 20) 0 20 1).
Proof.
  unfold Collision.placeInitial, Samples.collision, Samples.canvas,
    Collision.pxScale.
  cbn [Collision.v1 Collision.v2 Collision.r1 Collision.r2 Collision.m1
       Collision.m2 width height].
  rewrite !js_or_nonzero by lra. reflexivity.
Qed.

Lemma fast_placed :
  Collision.placeInitial Samples.canvas Samples.collision_fast
  = (Collision.mkBall (320 * 0.25) (360 / 2) (500 * 20) 0 20 2,
     Collision.mkBall (320 * 0.75) (360 / 2) (0 * 20) 0 20 1).
Proof.
  unfold Collision.placeInitial, Samples.collision_fast, Samples.canvas,
    Collision.pxScale.
  cbn [Collision.v1 Collision.v2 Collision.r1 Collision.r2 Collision.m1
       Collision.m2 width height].
  rewrite js_or_zero. rewrite !js_or_nonzero by lra. reflexivity.
Qed.

(** C5. With [v1 = 500] and [v2 = 0] on a canvas 320 wide, the first
    tick brings both centres to [(240, 180)]: their distance is [0], the
    overlap test passes, and the normal is computed as [0/0]; the tick
    has no finite state to return. *)
Theorem coincident_centres_divide_by_zero :
  let s0 := Collision.init Samples.canvas Samples.collision_fast in
  let b1 := Collision.bounce Samples.canvas (Collision.integrate dt (Collision.ball1 s0)) in
  let b2 := Collision.bounce Samples.canvas (Collision.integrate dt (Collision.ball2 s0)) in
  Collision.x b1 = 240 /\ Collision.y b1 = 180 /\
  Collision.x b2 = 240 /\ Collision.y b2 = 180 /\
  Collision.centre_dist b1 b2 = 0 /\
  (Collision.x b2 - Collision.x b1) /? Collision.centre_dist b1 b2 = None /\
  Collision.step Samples.canvas Samples.collision_fast s0 = None.
Proof.
  intros s0 b1 b2.
  assert (E1 : b1 = Collision.integrate dt (Collision.ball1 s0)).
  { unfold b1, s0, Collision.init. rewrite fast_placed.
    apply bounce_inside; unfold dt; cbn; lra. }
  assert (E2 : b2 = Collision.integrate dt (Collision.ball2 s0)).
  { unfold b2, s0, Collision.init. rewrite fast_placed.
    apply bounce_inside; unfold dt; cbn; lra. }
  assert (X1 : Collision.x b1 = 240).
  { rewrite E1. unfold s0, Collision.init. rewrite fast_placed.
    unfold dt; cbn; lra. }
  assert (Y1 : Collision.y b1 = 180).
  { rewrite E1. unfold s0, Collision.init. rewrite fast_placed.
    unfold dt; cbn; lra. }
  assert (X2 : Collision.x b2 = 240).
  { rewrite E2. unfold s0, Collision.init. rewrite fast_placed.
    unfold dt; cbn; lra. }
  assert (Y2 : Collision.y b2 = 180).
  { rewrite E2. unfold s0, Collision.init. rewrite fast_placed.
    unfold dt; cbn; lra. }
  assert (Hr : 0 <= Collision.r b1 + Collision.r b2).
  { rewrite E1, E2. unfold s0, Collision.init. rewrite fast_placed.
    cbn; lra. }
  destruct (resolve_coincident Samples.collision_fast b1 b2) as [Hd Hres];
    [lra | lra | exact Hr |].
  repeat (split; [assumption |]).
  split.
  { rewrite Hd. apply jsdiv_zero. }
  unfold Collision.step.
  replace (Collision.running s0) with true by reflexivity.
  unfold Collision.update. fold b1 b2. rewrite Hres. reflexivity.
Qed.

(** The first tick of the preset collision: the balls are far apart and
    only drift. *)
Lemma preset_first_tick :
  exists s1,
    Collision.step Samples.canvas Samples.collision
                   (Collision.init Samples.canvas Samples.collision) = Some s1 /\
    Collision.x (Collision.ball1 s1) = 80.96 /\
    Collision.x (Collision.ball2 s1) = 239.68.
Proof.
  unfold Collision.step, Collision.init. rewrite preset_placed.
  cbn [Collision.running Collision.ball1 Collision.ball2 fst snd].
  unfold Collision.update.
  rewrite !bounce_inside by (unfold dt; cbn; lra).
  rewrite resolve_apart.
  - cbn [bind fst snd]. eexists. split; [reflexivity |].
    unfold dt; cbn; lra.
  - unfold Collision.centre_dist.
    rewrite (hypot_of_sqr _ _ 158.72); unfold dt; cbn; lra.
Qed.

(** ** Lifecycle: start *)

Lemma circular_start_keeps_state (s : Circular.State) :
  Circular.angle (Circular.start s) = Circular.angle s /\
  Circular.trace (Circular.start s) = Circular.trace s /\
  Circular.running (Circular.start s) = true /\
  Circular.requested (Circular.start s) = S (Circular.requested s).
Proof. repeat split; reflexivity. Qed.

Lemma collision_start_places (c : Canvas) (p : Collision.Params) (s : Collision.State) :
  Collision.ball1 (Collision.start c p s) = fst (Collision.placeInitial c p) /\
  Collision.ball2 (Collision.start c p s) = snd (Collision.placeInitial c p).
Proof. split; reflexivity. Qed.

(** C8 (projectile, collision). [start()] on a paused session starts
    over: the projectile paused at [t = 0.016] resumes from [t = 0], and
    the first ball of the preset collision, paused at [x = 80.96], is put
    back at [x = 80]. *)
Theorem start_after_pause_starts_over :
  (let s := Projectile.pause (Projectile.step dt Projectile.init) in
   Projectile.t s = 0.016 /\ Projectile.t (Projectile.start s) = 0) /\
  (exists s1,
     Collision.step Samples.canvas Samples.collision
                    (Collision.init Samples.canvas Samples.collision) = Some s1 /\
     Collision.x (Collision.ball1 (Collision.pause s1)) = 80.96 /\
     Collision.x (Collision.ball1
        (Collision.start Samples.canvas Samples.collision (Collision.pause s1)))
     = 80).
Proof.
  split.
  - cbn. unfold dt. split; [lra | reflexivity].
  - destruct preset_first_tick as (s1 & Hstep & Hx1 & _).
    exists s1. split; [exact Hstep |]. split; [exact Hx1 |].
    unfold Collision.start. rewrite preset_placed. cbn. lra.
Qed.

(** ** Lifecycle: reset *)

(** Two resets in a row leave the simulation state of the first. *)
Lemma reset_twice_same_state :
  (forall s, Projectile.t (Projectile.reset (Projectile.reset s))
             = Projectile.t (Projectile.reset s)) /\
  (forall s, Pendulum.reset (Pendulum.reset s) = Pendulum.reset s) /\
  (forall s, Spring.reset (Spring.reset s) = Spring.reset s) /\
  (forall c p s,
     Circular.angle (Circular.reset c p (Circular.reset c p s))
     = Circular.angle (Circular.reset c p s) /\
     Circular.trace (Circular.reset c p (Circular.reset c p s))
     = Circular.trace (Circular.reset c p s)) /\
  (forall c p s,
     Collision.ball1 (Collision.reset c p (Collision.reset c p s))
     = Collision.ball1 (Collision.reset c p s) /\
     Collision.ball2 (Collision.reset c p (Collision.reset c p s))
     = Collision.ball2 (Collision.reset c p s)) /\
  (forall c p s,
     Electric.charges (Electric.reset c p (Electric.reset c p s))
     = Electric.charges (Electric.reset c p s)).
Proof. repeat split; reflexivity. Qed.

(** What [reset] makes of the state where it is written. *)
Lemma reset_reinitialises :
  (forall s, Projectile.t (Projectile.reset s) = 0) /\
  (forall c p s,
     Circular.angle (Circular.reset c p s) = 0 /\
     Circular.trace (Circular.reset c p s) = [Circular.point c p 0]) /\
  (forall c p s,
     (Collision.ball1 (Collision.reset c p s),
      Collision.ball2 (Collision.reset c p s)) = Collision.placeInitial c p) /\
  (forall c p s,
     Electric.charges (Electric.reset c p s) = Electric.placeCharges c p).
Proof. repeat split; reflexivity. Qed.

(** C4 (pendulum). [reset()] of the pendulum is empty: after one tick of
    the preset pendulum, one reset or two leave [theta = 0.4992152], not
    the [theta0 = 0.5] of the parameters. *)
Theorem pendulum_reset_keeps_state :
  exists s1,
    Pendulum.step Samples.pendulum dt (Pendulum.init Samples.pendulum) = Some s1 /\
    Pendulum.reset s1 = s1 /\
    Pendulum.theta (Pendulum.reset (Pendulum.reset s1)) = 0.4992152 /\
    Pendulum.theta0 Samples.pendulum = 0.5 /\
    Pendulum.theta (Pendulum.reset (Pendulum.reset s1))
      <> Pendulum.theta (Pendulum.init Samples.pendulum).
Proof.
  eexists. split; [exact pendulum_first_tick |].
  split; [reflexivity |]. split; [reflexivity |]. split; [reflexivity |].
  cbn. lra.
Qed.

(** ** The trace of the circular motion *)

Section Trace.

Variable c : Canvas.
Variable p : Circular.Params.

Lemma push_bounded (pt : Circular.Point) (tr : list Circular.Point) :
  (List.length tr <= Circular.maxTrace)%nat ->
  (List.length (Circular.push pt tr) <= Circular.maxTrace)%nat.
Proof.
  intros Hlen. unfold Circular.push.
  destruct (Nat.ltb_spec Circular.maxTrace (List.length (tr ++ [pt]))) as [Hgt | Hle].
  - rewrite length_app in Hgt. cbn [List.length] in Hgt.
    destruct tr as [| q tr']; cbn [app tl List.length] in *.
    + lia.
    + rewrite length_app. cbn [List.length]. lia.
  - exact Hle.
Qed.

Lemma apply_bounded (s : Circular.State) (ev : Circular.Event) :
  (List.length (Circular.trace s) <= Circular.maxTrace)%nat ->
  (List.length (Circular.trace (Circular.apply c p s ev)) <= Circular.maxTrace)%nat.
Proof.
  intros Hlen. destruct ev; cbn [Circular.apply].
  - unfold Circular.step. destruct (Circular.running s); [| exact Hlen].
    cbn [Circular.draw Circular.trace Circular.angle]. now apply push_bounded.
  - exact Hlen.
  - exact Hlen.
  - unfold Circular.reset, Circular.draw. cbn [Circular.trace].
    apply push_bounded. cbn. lia.
Qed.

Lemma run_bounded (evs : list Circular.Event) (s : Circular.State) :
  (List.length (Circular.trace s) <= Circular.maxTrace)%nat ->
  (List.length (Circular.trace (Circular.run c p evs s)) <= Circular.maxTrace)%nat.
Proof.
  revert s. induction evs as [| ev evs IH]; intros s Hlen; cbn [Circular.run fold_left].
  - exact Hlen.
  - apply IH. now apply apply_bounded.
Qed.

Lemma ticks_running (n : nat) :
  Circular.running (Circular.ticks c p n Circular.init) = true.
Proof.
  induction n as [| n IH]; [reflexivity |].
  cbn [Circular.ticks]. unfold Circular.step. rewrite IH. reflexivity.
Qed.

(** In exact arithmetic [n] additions of [angularSpeed * 0.016] add up
    to [n * (angularSpeed * 0.016)]. *)
Lemma ticks_angle (n : nat) :
  Circular.angle (Circular.ticks c p n Circular.init)
  = INR n * (Circular.angularSpeed p * 0.016).
Proof.
  induction n as [| n IH].
  - cbn. lra.
  - cbn [Circular.ticks]. unfold Circular.step. rewrite ticks_running.
    cbn [Circular.draw Circular.angle]. rewrite IH, S_INR. lra.
Qed.

Lemma ticks_trace_step (n : nat) :
  Circular.trace (Circular.ticks c p (S n) Circular.init)
  = Circular.push (Circular.recorded c p n)
                  (Circular.trace (Circular.ticks c p n Circular.init)).
Proof.
  unfold Circular.recorded. cbn [Circular.ticks]. unfold Circular.step.
  rewrite ticks_running. reflexivity.
Qed.

(** Pushing onto a window of the history slides the window. *)
Lemma push_window (f : nat -> Circular.Point) (n : nat) :
  Circular.push (f n) (map f (seq (n - Circular.maxTrace) (Nat.min n Circular.maxTrace)))
  = map f (seq (S n - Circular.maxTrace) (Nat.min (S n) Circular.maxTrace)).
Proof.
  unfold Circular.push.
  change [f n] with (map f [n]). rewrite <- map_app, length_map, length_app, length_seq.
  cbn [List.length].
  destruct (Nat.lt_ge_cases n Circular.maxTrace) as [Hlt | Hge].
  - replace (n - Circular.maxTrace)%nat with 0%nat by lia.
    replace (S n - Circular.maxTrace)%nat with 0%nat by lia.
    rewrite Nat.min_l by lia. rewrite (Nat.min_l (S n)) by lia.
    destruct (Nat.ltb_spec Circular.maxTrace (n + 1)) as [Hgt | _]; [lia |].
    now rewrite seq_S.
  - rewrite Nat.min_r by lia. rewrite (Nat.min_r (S n)) by lia.
    destruct (Nat.ltb_spec Circular.maxTrace (Circular.maxTrace + 1)) as [_ | Hle]; [| lia].
    replace [n] with (seq (n - Circular.maxTrace + Circular.maxTrace) 1)
      by (cbn [seq]; f_equal; lia).
    rewrite <- seq_app.
    replace (Circular.maxTrace + 1)%nat with (S Circular.maxTrace) by lia.
    rewrite <- cons_seq. cbn [map tl].
    replace (S n - Circular.maxTrace)%nat with (S (n - Circular.maxTrace)) by lia.
    reflexivity.
Qed.

(** After [n] ticks the trace is the last [min n 120] recorded points. *)
Lemma ticks_trace (n : nat) :
  Circular.trace (Circular.ticks c p n Circular.init)
  = map (Circular.recorded c p)
        (seq (n - Circular.maxTrace) (Nat.min n Circular.maxTrace)).
Proof.
  induction n as [| n IH]; [reflexivity |].
  rewrite ticks_trace_step, IH. apply push_window.
Qed.

End Trace.

(** C7. Whatever is done to a circular session (ticks, start, pause,
    reset), its trace never holds more than 120 points.  After 200 ticks
    of a fresh session it holds exactly 120: the points recorded by the
    ticks 80 to 199, counted from 0, oldest first; the 80 older points
    are gone.  The oldest one kept is the point of angle
    [81 * (angularSpeed * 0.016)]. *)
Theorem trace_is_a_bounded_fifo (c : Canvas) (p : Circular.Params) :
  (forall evs,
     (List.length (Circular.trace (Circular.run c p evs Circular.init)) <= 120)%nat) /\
  (forall n,
     (List.length (Circular.trace (Circular.ticks c p n Circular.init)) <= 120)%nat) /\
  List.length (Circular.trace (Circular.ticks c p 200 Circular.init)) = 120%nat /\
  Circular.trace (Circular.ticks c p 200 Circular.init)
  = map (Circular.recorded c p) (seq 80 120) /\
  hd_error (Circular.trace (Circular.ticks c p 200 Circular.init))
  = Some (Circular.recorded c p 80) /\
  Circular.recorded c p 80
  = Circular.point c p (81 * (Circular.angularSpeed p * 0.016)).
Proof.
  split.
  { intros evs. apply (run_bounded c p evs Circular.init). cbn. lia. }
  split.
  { intros n. rewrite ticks_trace, length_map, length_seq.
    unfold Circular.maxTrace. lia. }
  assert (H200 : Circular.trace (Circular.ticks c p 200 Circular.init)
                 = map (Circular.recorded c p) (seq 80 120)).
  { rewrite ticks_trace. reflexivity. }
  split; [rewrite H200, length_map, length_seq; reflexivity |].
  split; [exact H200 |].
  split; [rewrite H200; reflexivity |].
  unfold Circular.recorded. rewrite ticks_angle. f_equal.
  replace (INR 81) with 81; [reflexivity |].
  rewrite INR_IZR_INZ. reflexivity.
Qed.

(** ** The field evaluator *)

Lemma pow15_cube (dx dy : R) :
  0 < dx * dx + dy * dy ->
  Electric.pow15 (dx * dx + dy * dy) = hypot dx dy * hypot dx dy * hypot dx dy.
Proof.
  intros Hpos. unfold Electric.pow15.
  replace 1.5 with (1 + / 2) by lra.
  rewrite Rpower_plus, Rpower_1, Rpower_sqrt by exact Hpos.
  rewrite hypot_sqr. reflexivity.
Qed.

(** One turn of the loop adds the contribution of the specification. *)
Lemma accumulate_contribution (gx gy : R) (E : R * R) (ch : Electric.Charge) :
  Electric.accumulate gx gy E ch
  = (fst E + fst (FieldSpec.contribution ch gx gy),
     snd E + snd (FieldSpec.contribution ch gx gy)).
Proof.
  unfold Electric.accumulate, FieldSpec.contribution.
  rewrite hypot_sqr.
  set (dx := gx - Electric.x ch). set (dy := gy - Electric.y ch).
  destruct (Rlt_dec (dx * dx + dy * dy) 16) as [Hnear | Hfar].
  - cbn [fst snd]. destruct E as [Ex Ey]. cbn [fst snd]. f_equal; lra.
  - rewrite pow15_cube by lra. rewrite hypot_sqr. reflexivity.
Qed.

Lemma INR_probe_last : INR (Chart.N - 1) = 119.
Proof. unfold Chart.N. rewrite INR_IZR_INZ. reflexivity. Qed.

(** No sample of the probe falls within [0.0001] of a charge. *)
Lemma probe_clear_of_charges (i : nat) :
  0.0001 < Rabs (Chart.probe_x i - Chart.cx1) /\
  0.0001 < Rabs (Chart.probe_x i - Chart.cx2).
Proof.
  unfold Chart.probe_x, Chart.cx1, Chart.cx2. rewrite INR_probe_last.
  assert (H39 : INR 39 = 39) by (rewrite INR_IZR_INZ; reflexivity).
  assert (H40 : INR 40 = 40) by (rewrite INR_IZR_INZ; reflexivity).
  assert (H79 : INR 79 = 79) by (rewrite INR_IZR_INZ; reflexivity).
  assert (H80 : INR 80 = 80) by (rewrite INR_IZR_INZ; reflexivity).
  split.
  - destruct (Nat.le_gt_cases i 39) as [Hle | Hgt].
    + apply le_INR in Hle. rewrite H39 in Hle.
      rewrite Rabs_left by lra. lra.
    + apply le_INR in Hgt. rewrite H40 in Hgt.
      rewrite Rabs_right by lra. lra.
  - destruct (Nat.le_gt_cases i 79) as [Hle | Hgt].
    + apply le_INR in Hle. rewrite H79 in Hle.
      rewrite Rabs_left by lra. lra.
    + apply le_INR in Hgt. rewrite H80 in Hgt.
      rewrite Rabs_right by lra. lra.
Qed.

Lemma Rabs_quotient_sq (qq rr : R) :
  0 < rr -> Rabs (qq / (rr * rr)) = Rabs qq / (rr * rr).
Proof.
  intros Hr. unfold Rdiv. rewrite Rabs_mult. f_equal.
  apply Rabs_right. left. apply Rinv_0_lt_compat. nra.
Qed.

Lemma Emag_probe (qa qb : R) (i : nat) :
  Chart.Emag qa qb i = FieldSpec.probe qa qb (Chart.probe_x i).
Proof.
  destruct (probe_clear_of_charges i) as [H1 H2].
  unfold Chart.Emag, FieldSpec.probe.
  destruct (Rlt_dec 0.0001 (Rabs (Chart.probe_x i - Chart.cx1))); [| contradiction].
  destruct (Rlt_dec 0.0001 (Rabs (Chart.probe_x i - Chart.cx2))); [| contradiction].
  rewrite !Rabs_quotient_sq by lra. reflexivity.
Qed.

(** C6. At every sample point the field computed over two charges is the
    vector sum of [q (p - source) / |p - source|^3] over the charges at
    squared distance 16 or more, the nearer ones adding nothing; the
    series of the chart is [|q1|/r1^2 + |q2|/r2^2] at each of its 120
    samples, a sum of magnitudes. *)
Theorem field_superposition_and_probe :
  (forall c1 c2 gx gy,
     Electric.field [c1; c2] gx gy = FieldSpec.superposition c1 c2 gx gy) /\
  (forall c p gx gy,
     exists c1 c2,
       Electric.charges (Electric.init c p) = [c1; c2] /\
       Electric.field (Electric.charges (Electric.init c p)) gx gy
       = FieldSpec.superposition c1 c2 gx gy) /\
  (forall qy,
     Chart.field_series qy
     = map (fun i => FieldSpec.probe (js_or (Chart.q1 qy) 3) (js_or (Chart.q2 qy) (-3))
                                     (Chart.probe_x i))
           (seq 0 120)).
Proof.
  assert (H2d : forall c1 c2 gx gy,
             Electric.field [c1; c2] gx gy = FieldSpec.superposition c1 c2 gx gy).
  { intros c1 c2 gx gy. unfold Electric.field. cbn [fold_left].
    rewrite !accumulate_contribution. cbn [fst snd].
    unfold FieldSpec.superposition. f_equal; lra. }
  split; [exact H2d |]. split.
  - intros c p gx gy. eexists; eexists. split; [reflexivity |]. apply H2d.
  - intros qy. unfold Chart.field_series, Chart.N.
    apply map_ext. intros i. apply Emag_probe.
Qed.

(** * Further properties of the code *)

(** ** The walls *)

(** Case analysis over the four wall tests. *)
Ltac bounce_cases c b :=
  unfold Collision.bounce;
  destruct (Rlt_dec (Collision.x b - Collision.r b) 0);
  cbn [Collision.x Collision.y Collision.r Collision.vx Collision.vy Collision.m];
  match goal with |- context [Rlt_dec (width c) ?e] =>
    destruct (Rlt_dec (width c) e) end;
  cbn [Collision.x Collision.y Collision.r Collision.vx Collision.vy Collision.m];
  match goal with |- context [Rlt_dec ?e 0] => destruct (Rlt_dec e 0) end;
  cbn [Collision.x Collision.y Collision.r Collision.vx Collision.vy Collision.m];
  match goal with |- context [Rlt_dec (height c) ?e] =>
    destruct (Rlt_dec (height c) e) end;
  cbn [Collision.x Collision.y Collision.r Collision.vx Collision.vy Collision.m].

(** What the walls leave alone. *)
Lemma bounce_frame (c : Canvas) (b : Collision.Ball) :
  Collision.r (Collision.bounce c b) = Collision.r b /\
  Collision.m (Collision.bounce c b) = Collision.m b /\
  Collision.kinetic (Collision.bounce c b) = Collision.kinetic b.
Proof.
  unfold Collision.kinetic. bounce_cases c b; repeat split; try reflexivity; lra.
Qed.

(** X1. On a canvas at least as wide and as high as the ball, the wall
    tests leave the ball within the walls, and running them again
    changes nothing. *)
Theorem bounce_brings_inside (c : Canvas) (b : Collision.Ball) :
  2 * Collision.r b <= width c -> 2 * Collision.r b <= height c ->
  Collision.inside c (Collision.bounce c b) /\
  Collision.bounce c (Collision.bounce c b) = Collision.bounce c b.
Proof.
  intros HW HH.
  assert (Hin : Collision.inside c (Collision.bounce c b)).
  { unfold Collision.inside. bounce_cases c b; lra. }
  split; [exact Hin |].
  destruct Hin as [[? ?] [? ?]]. apply bounce_inside; lra.
Qed.

Lemma bounce_brings_inside_witness :
  Collision.inside Samples.canvas
    (Collision.bounce Samples.canvas (Collision.mkBall (-5) 400 (-60) 30 20 2)).
Proof.
  apply (bounce_brings_inside Samples.canvas
           (Collision.mkBall (-5) 400 (-60) 30 20 2)); cbn; lra.
Defined.

(** X2. A wall never changes the speed of a ball along either axis, nor
    its radius or mass: the kinetic energy of the ball is kept. *)
Theorem bounce_keeps_energy (c : Canvas) (b : Collision.Ball) :
  Rabs (Collision.vx (Collision.bounce c b)) = Rabs (Collision.vx b) /\
  Rabs (Collision.vy (Collision.bounce c b)) = Rabs (Collision.vy b) /\
  Collision.r (Collision.bounce c b) = Collision.r b /\
  Collision.m (Collision.bounce c b) = Collision.m b /\
  Collision.kinetic (Collision.bounce c b) = Collision.kinetic b.
Proof.
  assert (Hneg : forall v, Rabs (v * -1) = Rabs v).
  { intros v. replace (v * -1) with (- v) by lra. apply Rabs_Ropp. }
  unfold Collision.kinetic. bounce_cases c b;
    rewrite ?Hneg; repeat split; try reflexivity; lra.
Qed.

(** ** The physics of the resolver *)

(** A velocity is the sum of its parts along and across a unit vector. *)
Lemma split_along_across (nx ny : R) (b : Collision.Ball) :
  nx * nx + ny * ny = 1 ->
  Collision.vx b = Collision.along nx ny b * nx + Collision.across nx ny b * - ny /\
  Collision.vy b = Collision.along nx ny b * ny + Collision.across nx ny b * nx /\
  Collision.vx b * Collision.vx b + Collision.vy b * Collision.vy b
  = Collision.along nx ny b * Collision.along nx ny b
    + Collision.across nx ny b * Collision.across nx ny b.
Proof.
  intros Hunit. unfold Collision.along, Collision.across.
  set (u := Collision.vx b). set (w := Collision.vy b).
  repeat split.
  - transitivity (u * (nx * nx + ny * ny)); [rewrite Hunit |]; ring.
  - transitivity (w * (nx * nx + ny * ny)); [rewrite Hunit |]; ring.
  - transitivity ((u * u + w * w) * (nx * nx + ny * ny)); [rewrite Hunit |]; ring.
Qed.

(** The parts of the two velocities after a resolution. *)
Lemma resolve_components (p : Collision.Params) (b1 b2 : Collision.Ball) :
  Collision.m b1 + Collision.m b2 <> 0 ->
  0 < Collision.centre_dist b1 b2 ->
  Collision.centre_dist b1 b2 <= Collision.r b1 + Collision.r b2 ->
  let nx := (Collision.x b2 - Collision.x b1) / Collision.centre_dist b1 b2 in
  let ny := (Collision.y b2 - Collision.y b1) / Collision.centre_dist b1 b2 in
  let e := Collision.restitution p in
  let m1 := Collision.m b1 in
  let m2 := Collision.m b2 in
  let v1n := Collision.along nx ny b1 in
  let v2n := Collision.along nx ny b2 in
  nx * nx + ny * ny = 1 /\
  exists b1' b2',
    Collision.resolve p b1 b2 = Some (b1', b2') /\
    Collision.m b1' = m1 /\ Collision.m b2' = m2 /\
    Collision.r b1' = Collision.r b1 /\ Collision.r b2' = Collision.r b2 /\
    Collision.along nx ny b1'
      = (m1 * v1n + m2 * v2n + m2 * e * (v2n - v1n)) / (m1 + m2) /\
    Collision.along nx ny b2'
      = (m1 * v1n + m2 * v2n + m1 * e * (v1n - v2n)) / (m1 + m2) /\
    Collision.across nx ny b1' = Collision.across nx ny b1 /\
    Collision.across nx ny b2' = Collision.across nx ny b2.
Proof.
  intros Hm Hpos Hle nx ny e m1 m2 v1n v2n.
  pose proof (unit_normal _ _ Hpos) as Hunit.
  fold (Collision.centre_dist b1 b2) in Hunit. fold nx ny in Hunit.
  split; [exact Hunit |].
  eexists; eexists. split.
  { apply resolve_overlap; assumption. }
  fold nx ny e m1 m2 v1n v2n.
  unfold Collision.along, Collision.across.
  cbn [Collision.vx Collision.vy Collision.m Collision.r].
  fold (Collision.along nx ny b1) (Collision.along nx ny b2).
  fold v1n v2n.
  set (t1 := Collision.vx b1 * - ny + Collision.vy b1 * nx).
  set (t2 := Collision.vx b2 * - ny + Collision.vy b2 * nx).
  set (A1 := (m1 * v1n + m2 * v2n + m2 * e * (v2n - v1n)) / (m1 + m2)).
  set (A2 := (m1 * v1n + m2 * v2n + m1 * e * (v1n - v2n)) / (m1 + m2)).
  repeat split.
  - transitivity (A1 * (nx * nx + ny * ny)); [ring | rewrite Hunit; ring].
  - transitivity (A2 * (nx * nx + ny * ny)); [ring | rewrite Hunit; ring].
  - transitivity (t1 * (nx * nx + ny * ny)); [ring | rewrite Hunit; ring].
  - transitivity (t2 * (nx * nx + ny * ny)); [ring | rewrite Hunit; ring].
Qed.

(** X3. Law of restitution: after the resolution the balls part along
    the normal at [e] times the speed of their approach, [e] being the
    clamped restitution; with [e = 0] they leave with one and the same
    normal velocity, the velocity of their centre of mass. *)
Theorem resolver_restitution_law (p : Collision.Params) (b1 b2 : Collision.Ball) :
  Collision.m b1 + Collision.m b2 <> 0 ->
  0 < Collision.centre_dist b1 b2 ->
  Collision.centre_dist b1 b2 <= Collision.r b1 + Collision.r b2 ->
  let nx := (Collision.x b2 - Collision.x b1) / Collision.centre_dist b1 b2 in
  let ny := (Collision.y b2 - Collision.y b1) / Collision.centre_dist b1 b2 in
  exists b1' b2',
    Collision.resolve p b1 b2 = Some (b1', b2') /\
    Collision.along nx ny b2' - Collision.along nx ny b1'
    = - Collision.restitution p
      * (Collision.along nx ny b2 - Collision.along nx ny b1) /\
    (Collision.restitution p = 0 ->
     Collision.along nx ny b1' = Collision.along nx ny b2' /\
     Collision.along nx ny b1'
     = (Collision.m b1 * Collision.along nx ny b1
        + Collision.m b2 * Collision.along nx ny b2)
       / (Collision.m b1 + Collision.m b2)).
Proof.
  intros Hm Hpos Hle nx ny.
  destruct (resolve_components p b1 b2 Hm Hpos Hle)
    as [_ (b1' & b2' & Hres & _ & _ & _ & _ & HA1 & HA2 & _ & _)].
  exists b1', b2'. split; [exact Hres |].
  fold nx ny in HA1, HA2. rewrite HA1, HA2. split.
  - field. exact Hm.
  - intros He. rewrite He. split; field; exact Hm.
Qed.

Lemma resolver_restitution_law_witness :
  exists b1' b2',
    Collision.resolve Samples.collision Samples.left_ball Samples.right_ball
      = Some (b1', b2') /\
    Collision.along 1 0 b2' - Collision.along 1 0 b1' = 80.
Proof.
  pose proof sample_balls_distance as Hd.
  destruct (resolver_restitution_law Samples.collision
              Samples.left_ball Samples.right_ball)
    as (b1' & b2' & Hres & Hlaw & _).
  - cbn; lra.
  - rewrite Hd; lra.
  - rewrite Hd; cbn; lra.
  - exists b1', b2'. split; [exact Hres |].
    rewrite Hd in Hlaw. cbn [Samples.left_ball Samples.right_ball
      Collision.x Collision.y] in Hlaw.
    replace ((130 - 100) / 30) with 1 in Hlaw by lra.
    replace ((180 - 180) / 30) with 0 in Hlaw by lra.
    rewrite Hlaw.
    rewrite (restitution_inside Samples.collision 1); [| reflexivity | lra].
    unfold Collision.along. cbn. lra.
Defined.

(** The energy balance of a resolution. *)
Lemma resolve_energy_balance (p : Collision.Params) (b1 b2 : Collision.Ball) :
  0 < Collision.m b1 -> 0 < Collision.m b2 ->
  0 < Collision.centre_dist b1 b2 ->
  Collision.centre_dist b1 b2 <= Collision.r b1 + Collision.r b2 ->
  let nx := (Collision.x b2 - Collision.x b1) / Collision.centre_dist b1 b2 in
  let ny := (Collision.y b2 - Collision.y b1) / Collision.centre_dist b1 b2 in
  let e := Collision.restitution p in
  let w := Collision.along nx ny b2 - Collision.along nx ny b1 in
  exists b1' b2',
    Collision.resolve p b1 b2 = Some (b1', b2') /\
    Collision.kinetic b1' + Collision.kinetic b2'
    = Collision.kinetic b1 + Collision.kinetic b2
      - Collision.m b1 * Collision.m b2 * (1 - e * e) * (w * w)
        / (2 * (Collision.m b1 + Collision.m b2)) /\
    Collision.kinetic b1' + Collision.kinetic b2'
    <= Collision.kinetic b1 + Collision.kinetic b2 /\
    (e = 1 ->
     Collision.kinetic b1' + Collision.kinetic b2'
     = Collision.kinetic b1 + Collision.kinetic b2).
Proof.
  intros Hm1 Hm2 Hpos Hle nx ny e w.
  assert (Hm : Collision.m b1 + Collision.m b2 <> 0) by lra.
  destruct (resolve_components p b1 b2 Hm Hpos Hle)
    as [Hunit (b1' & b2' & Hres & Hma & Hmb & _ & _ & HA1 & HA2 & HT1 & HT2)].
  fold nx ny in Hunit, HA1, HA2, HT1, HT2. fold e in HA1, HA2.
  exists b1', b2'. split; [exact Hres |].
  destruct (split_along_across nx ny b1 Hunit) as (_ & _ & S1).
  destruct (split_along_across nx ny b2 Hunit) as (_ & _ & S2).
  destruct (split_along_across nx ny b1' Hunit) as (_ & _ & S1').
  destruct (split_along_across nx ny b2' Hunit) as (_ & _ & S2').
  unfold Collision.kinetic. rewrite S1, S2, S1', S2', Hma, Hmb, HT1, HT2, HA1, HA2.
  unfold w.
  set (m1 := Collision.m b1) in *. set (m2 := Collision.m b2) in *.
  set (v1n := Collision.along nx ny b1). set (v2n := Collision.along nx ny b2).
  set (t1 := Collision.across nx ny b1). set (t2 := Collision.across nx ny b2).
  assert (Hloss :
    m1 * ((m1 * v1n + m2 * v2n + m2 * e * (v2n - v1n)) / (m1 + m2)
          * ((m1 * v1n + m2 * v2n + m2 * e * (v2n - v1n)) / (m1 + m2))
          + t1 * t1) / 2
    + m2 * ((m1 * v1n + m2 * v2n + m1 * e * (v1n - v2n)) / (m1 + m2)
            * ((m1 * v1n + m2 * v2n + m1 * e * (v1n - v2n)) / (m1 + m2))
            + t2 * t2) / 2
    = m1 * (v1n * v1n + t1 * t1) / 2 + m2 * (v2n * v2n + t2 * t2) / 2
      - m1 * m2 * (1 - e * e) * ((v2n - v1n) * (v2n - v1n)) / (2 * (m1 + m2))).
  { field. exact Hm. }
  split; [exact Hloss |]. split.
  - rewrite Hloss.
    pose proof (restitution_range p) as He. fold e in He.
    assert (0 <= m1 * m2 * (1 - e * e) * ((v2n - v1n) * (v2n - v1n))
                 / (2 * (m1 + m2))).
    { apply Rmult_le_pos.
      - apply Rmult_le_pos; [apply Rmult_le_pos; nra |].
        exact (Rle_0_sqr (v2n - v1n)).
      - left. apply Rinv_0_lt_compat. lra. }
    lra.
  - intros He. rewrite Hloss, He. field. exact Hm.
Qed.

(** X4. A resolution between balls of positive mass takes away the
    kinetic energy [m1 m2 (1 - e^2) w^2 / (2 (m1 + m2))], [w] being the
    speed of approach along the normal and [e] the clamped restitution:
    it never adds energy, and keeps it all when [e = 1]. *)
Theorem resolver_energy_loss (p : Collision.Params) (b1 b2 : Collision.Ball) :
  0 < Collision.m b1 -> 0 < Collision.m b2 ->
  0 < Collision.centre_dist b1 b2 ->
  Collision.centre_dist b1 b2 <= Collision.r b1 + Collision.r b2 ->
  let nx := (Collision.x b2 - Collision.x b1) / Collision.centre_dist b1 b2 in
  let ny := (Collision.y b2 - Collision.y b1) / Collision.centre_dist b1 b2 in
  let e := Collision.restitution p in
  let w := Collision.along nx ny b2 - Collision.along nx ny b1 in
  exists b1' b2',
    Collision.resolve p b1 b2 = Some (b1', b2') /\
    Collision.kinetic b1' + Collision.kinetic b2'
    = Collision.kinetic b1 + Collision.kinetic b2
      - Collision.m b1 * Collision.m b2 * (1 - e * e) * (w * w)
        / (2 * (Collision.m b1 + Collision.m b2)) /\
    Collision.kinetic b1' + Collision.kinetic b2'
    <= Collision.kinetic b1 + Collision.kinetic b2 /\
    (e = 1 ->
     Collision.kinetic b1' + Collision.kinetic b2'
     = Collision.kinetic b1 + Collision.kinetic b2).
Proof. exact (resolve_energy_balance p b1 b2). Qed.

Lemma resolver_energy_loss_witness :
  exists b1' b2',
    Collision.resolve Samples.collision Samples.left_ball Samples.right_ball
      = Some (b1', b2') /\
    Collision.kinetic b1' + Collision.kinetic b2'
    <= Collision.kinetic Samples.left_ball + Collision.kinetic Samples.right_ball.
Proof.
  pose proof sample_balls_distance as Hd.
  destruct (resolver_energy_loss Samples.collision
              Samples.left_ball Samples.right_ball)
    as (b1' & b2' & Hres & _ & Hle & _).
  - cbn; lra.
  - cbn; lra.
  - rewrite Hd; lra.
  - rewrite Hd; cbn; lra.
  - exists b1', b2'. split; [exact Hres | exact Hle].
Defined.

(** X5. A resolution keeps the momentum of the pair, in [x] and in [y]. *)
Theorem resolver_keeps_momentum (p : Collision.Params) (b1 b2 : Collision.Ball) :
  Collision.m b1 + Collision.m b2 <> 0 ->
  0 < Collision.centre_dist b1 b2 ->
  Collision.centre_dist b1 b2 <= Collision.r b1 + Collision.r b2 ->
  exists b1' b2',
    Collision.resolve p b1 b2 = Some (b1', b2') /\
    Collision.momentum_x b1' + Collision.momentum_x b2'
    = Collision.momentum_x b1 + Collision.momentum_x b2 /\
    Collision.momentum_y b1' + Collision.momentum_y b2'
    = Collision.momentum_y b1 + Collision.momentum_y b2.
Proof.
  intros Hm Hpos Hle.
  destruct (resolve_components p b1 b2 Hm Hpos Hle)
    as [Hunit (b1' & b2' & Hres & Hma & Hmb & _ & _ & HA1 & HA2 & HT1 & HT2)].
  set (nx := (Collision.x b2 - Collision.x b1) / Collision.centre_dist b1 b2) in *.
  set (ny := (Collision.y b2 - Collision.y b1) / Collision.centre_dist b1 b2) in *.
  exists b1', b2'. split; [exact Hres |].
  destruct (split_along_across nx ny b1 Hunit) as (X1 & Y1 & _).
  destruct (split_along_across nx ny b2 Hunit) as (X2 & Y2 & _).
  destruct (split_along_across nx ny b1' Hunit) as (X1' & Y1' & _).
  destruct (split_along_across nx ny b2' Hunit) as (X2' & Y2' & _).
  unfold Collision.momentum_x, Collision.momentum_y.
  rewrite X1, X2, X1', X2', Y1, Y2, Y1', Y2', Hma, Hmb, HT1, HT2, HA1, HA2.
  split; field; exact Hm.
Qed.

Lemma resolver_keeps_momentum_witness :
  exists b1' b2',
    Collision.resolve Samples.collision Samples.left_ball Samples.right_ball
      = Some (b1', b2') /\
    Collision.momentum_x b1' + Collision.momentum_x b2' = 100 /\
    Collision.momentum_y b1' + Collision.momentum_y b2' = 0.
Proof.
  pose proof sample_balls_distance as Hd.
  destruct (resolver_keeps_momentum Samples.collision
              Samples.left_ball Samples.right_ball)
    as (b1' & b2' & Hres & Hx & Hy).
  - cbn; lra.
  - rewrite Hd; lra.
  - rewrite Hd; cbn; lra.
  - exists b1', b2'. split; [exact Hres |].
    rewrite Hx, Hy.
    unfold Collision.momentum_x, Collision.momentum_y. split; cbn; lra.
Defined.

(** X6. A whole tick of the collision (drift, walls, resolution) never
    adds kinetic energy and never changes a mass or a radius, for balls
    of positive mass whose centres do not coincide after the walls. *)
Theorem tick_never_adds_energy (c : Canvas) (p : Collision.Params) (d : R)
        (b1 b2 : Collision.Ball) :
  0 < Collision.m b1 -> 0 < Collision.m b2 ->
  0 < Collision.centre_dist (Collision.bounce c (Collision.integrate d b1))
                            (Collision.bounce c (Collision.integrate d b2)) ->
  exists b1' b2',
    Collision.update c p d b1 b2 = Some (b1', b2') /\
    Collision.kinetic b1' + Collision.kinetic b2'
    <= Collision.kinetic b1 + Collision.kinetic b2 /\
    Collision.m b1' = Collision.m b1 /\ Collision.m b2' = Collision.m b2 /\
    Collision.r b1' = Collision.r b1 /\ Collision.r b2' = Collision.r b2.
Proof.
  intros Hm1 Hm2 Hpos. unfold Collision.update.
  destruct (bounce_frame c (Collision.integrate d b1)) as (Hr1 & Hma & Hk1).
  destruct (bounce_frame c (Collision.integrate d b2)) as (Hr2 & Hmb & Hk2).
  set (a1 := Collision.bounce c (Collision.integrate d b1)) in *.
  set (a2 := Collision.bounce c (Collision.integrate d b2)) in *.
  change (Collision.kinetic (Collision.integrate d b1)) with (Collision.kinetic b1) in Hk1.
  change (Collision.kinetic (Collision.integrate d b2)) with (Collision.kinetic b2) in Hk2.
  cbn [Collision.integrate Collision.r Collision.m] in Hr1, Hr2, Hma, Hmb.
  destruct (Rle_dec (Collision.centre_dist a1 a2) (Collision.r a1 + Collision.r a2))
    as [Hle | Hgt].
  - assert (Hm : Collision.m a1 + Collision.m a2 <> 0) by lra.
    destruct (resolve_energy_balance p a1 a2) as (b1' & b2' & Hres & _ & Hke & _);
      try lra.
    destruct (resolve_components p a1 a2 Hm Hpos Hle)
      as [_ (c1 & c2 & Hres' & Hm1' & Hm2' & Hr1' & Hr2' & _)].
    rewrite Hres in Hres'. injection Hres' as E1 E2. subst c1 c2.
    exists b1', b2'. split; [exact Hres |].
    repeat split; first [congruence | lra].
  - exists a1, a2. split; [apply resolve_apart; lra |].
    repeat split; first [assumption | lra].
Qed.

Lemma tick_never_adds_energy_witness :
  exists b1' b2',
    Collision.update Samples.canvas Samples.collision dt
                     Samples.left_ball Samples.right_ball = Some (b1', b2') /\
    Collision.kinetic b1' + Collision.kinetic b2'
    <= Collision.kinetic Samples.left_ball + Collision.kinetic Samples.right_ball.
Proof.
  destruct (tick_never_adds_energy Samples.canvas Samples.collision dt
              Samples.left_ball Samples.right_ball)
    as (b1' & b2' & Hup & Hke & _).
  - cbn; lra.
  - cbn; lra.
  - rewrite !bounce_inside by (unfold dt; cbn; lra).
    unfold Collision.centre_dist.
    rewrite (hypot_of_sqr _ _ 28.72); unfold dt; cbn; lra.
  - exists b1', b2'. split; [exact Hup | exact Hke].
Defined.

(** ** The chart against the tick *)

(** X7. For a head-on collision on the track (equal heights, the first
    ball on the left, overlapping) with positive masses, non-zero
    velocities and [0 < e <= 1], the horizontal velocities the tick gives
    the balls are, in metres per second, the [v1'] and [v2'] the chart
    answers for the same parameters. *)
Theorem chart_agrees_with_tick (ma mb u w ee : R) (ra rb : option R)
        (b1 b2 : Collision.Ball) :
  0 < ma -> 0 < mb -> u <> 0 -> w <> 0 -> 0 < ee <= 1 ->
  Collision.m b1 = ma -> Collision.m b2 = mb ->
  Collision.vx b1 = u * Collision.pxScale ->
  Collision.vx b2 = w * Collision.pxScale ->
  Collision.y b1 = Collision.y b2 ->
  Collision.x b1 < Collision.x b2 ->
  Collision.x b2 - Collision.x b1 <= Collision.r b1 + Collision.r b2 ->
  let p := Collision.mkParams ma mb (Some u) (Some w) ra rb (Some ee) in
  let qy := Chart.mkQuery None None None None None None None
                          (Some ma) (Some mb) (Some u) (Some w) (Some ee)
                          None None in
  exists v1' v2' b1' b2',
    Chart.v1p qy = Some v1' /\ Chart.v2p qy = Some v2' /\
    Collision.resolve p b1 b2 = Some (b1', b2') /\
    Collision.vx b1' = v1' * Collision.pxScale /\
    Collision.vx b2' = v2' * Collision.pxScale /\
    Collision.vy b1' = Collision.vy b1 /\
    Collision.vy b2' = Collision.vy b2.
Proof.
  intros Hma Hmb Hu Hw He M1 M2 V1 V2 Hy Hx Hov p qy.
  destruct (chart_collision_values ma mb u w ee) as [C1 C2]; try lra.
  fold qy in C1, C2.
  assert (Hd : Collision.centre_dist b1 b2 = Collision.x b2 - Collision.x b1).
  { unfold Collision.centre_dist. apply hypot_of_sqr; [lra |].
    replace (Collision.y b2 - Collision.y b1) with 0 by lra. ring. }
  assert (Hres := resolve_overlap p b1 b2).
  rewrite Hd in Hres.
  assert (Hnx : (Collision.x b2 - Collision.x b1) / (Collision.x b2 - Collision.x b1) = 1)
    by (field; lra).
  assert (Hny : (Collision.y b2 - Collision.y b1) / (Collision.x b2 - Collision.x b1) = 0)
    by (rewrite Hy; field; lra).
  rewrite Hnx, Hny in Hres.
  do 4 eexists. split; [exact C1 |]. split; [exact C2 |].
  split; [apply Hres; lra |].
  rewrite (restitution_inside p ee); [| reflexivity | lra].
  unfold Collision.along, Collision.across, Collision.pxScale in *.
  cbn [Collision.vx Collision.vy].
  rewrite M1, M2, V1, V2.
  repeat split; field; lra.
Qed.

Lemma chart_agrees_with_tick_witness :
  exists v1' v2' b1' b2',
    Chart.v1p (Samples.collision_query 1) = Some v1' /\
    Chart.v2p (Samples.collision_query 1) = Some v2' /\
    Collision.resolve Samples.collision Samples.left_ball Samples.right_ball
      = Some (b1', b2') /\
    Collision.vx b1' = v1' * Collision.pxScale /\
    Collision.vx b2' = v2' * Collision.pxScale.
Proof.
  destruct (chart_agrees_with_tick 2 1 3 (-1) 1 (Some 20) (Some 20)
              Samples.left_ball Samples.right_ball)
    as (v1' & v2' & b1' & b2' & C1 & C2 & Hres & H1 & H2 & _);
    try (unfold Collision.pxScale; cbn; lra).
  exists v1', v2', b1', b2'. repeat split; assumption.
Defined.

(** ** The oscillators *)

(** The quadratic form that one step of the integrator keeps. *)
Lemma euler_step_invariant (kk h q v : R) :
  let v' := v + - kk * q * h in
  let q' := q + v' * h in
  v' * v' + kk * (q' * q') - kk * h * (v' * q')
  = v * v + kk * (q * q) - kk * h * (v * q).
Proof. cbv zeta. ring. Qed.

(** The form bounds the displacement. *)
Lemma euler_form_bound (kk h q v : R) :
  kk * (1 - kk * (h * h) / 4) * (q * q)
  <= v * v + kk * (q * q) - kk * h * (v * q).
Proof.
  pose proof (Rle_0_sqr (v - kk * h * q / 2)) as Hsq. unfold Rsqr in Hsq. lra.
Qed.

Lemma pendulum_ticks_invariant (p : Pendulum.Params) (n : nat) (s : Pendulum.State) :
  Pendulum.length p <> 0 -> Pendulum.running s = true ->
  exists s',
    Pendulum.ticks p n s = Some s' /\
    Pendulum.running s' = true /\
    Pendulum.t s' = Pendulum.t s + INR n * dt /\
    Pendulum.energy p s' = Pendulum.energy p s.
Proof.
  intros HL Hrun. induction n as [| n (s1 & Ht & Hr & Htime & Hen)].
  - exists s. cbn [Pendulum.ticks INR]. repeat split; try assumption. lra.
  - cbn [Pendulum.ticks]. rewrite Ht. cbn [bind].
    unfold Pendulum.step. rewrite Hr, (jsdiv_nz _ _ HL). cbn [bind].
    eexists. split; [reflexivity |].
    cbn [Pendulum.running Pendulum.t]. split; [reflexivity |]. split.
    + rewrite Htime, S_INR. lra.
    + rewrite <- Hen. unfold Pendulum.energy.
      cbn [Pendulum.omega Pendulum.theta].
      apply (euler_step_invariant (Pendulum.g p / Pendulum.length p) dt
                                  (Pendulum.theta s1) (Pendulum.omega s1)).
Qed.

(** X8. A pendulum of non-zero length ticks for ever: after [n] ticks
    its clock reads [n * 0.016] and the form
    [omega^2 + (g/L) theta^2 - (g/L) dt omega theta] still has its first
    value [(g/L) theta0^2]; hence, for [g/L > 0], the angle never leaves
    [(1 - (g/L) dt^2 / 4) theta^2 <= theta0^2]. *)
Theorem pendulum_swing_is_bounded (p : Pendulum.Params) (n : nat) :
  Pendulum.length p <> 0 ->
  let kk := Pendulum.g p / Pendulum.length p in
  exists s,
    Pendulum.ticks p n (Pendulum.init p) = Some s /\
    Pendulum.t s = INR n * dt /\
    Pendulum.energy p s = kk * (Pendulum.theta0 p * Pendulum.theta0 p) /\
    (0 < kk ->
     (1 - kk * (dt * dt) / 4) * (Pendulum.theta s * Pendulum.theta s)
     <= Pendulum.theta0 p * Pendulum.theta0 p).
Proof.
  intros HL kk.
  destruct (pendulum_ticks_invariant p n (Pendulum.init p) HL eq_refl)
    as (s & Ht & _ & Htime & Hen).
  assert (Hen0 : Pendulum.energy p s
                 = kk * (Pendulum.theta0 p * Pendulum.theta0 p)).
  { rewrite Hen. unfold Pendulum.energy, Pendulum.init, kk.
    cbn [Pendulum.omega Pendulum.theta]. ring. }
  exists s. split; [exact Ht |]. split.
  { rewrite Htime. cbn [Pendulum.init Pendulum.t]. lra. }
  split; [exact Hen0 |].
  intros Hk.
  pose proof (euler_form_bound kk dt (Pendulum.theta s) (Pendulum.omega s)) as Hb.
  unfold Pendulum.energy in Hen0. fold kk in Hen0. rewrite Hen0 in Hb.
  apply (Rmult_le_reg_l kk); [exact Hk |]. lra.
Qed.

Lemma pendulum_swing_is_bounded_witness :
  exists s,
    Pendulum.ticks Samples.pendulum 1000 (Pendulum.init Samples.pendulum) = Some s /\
    Pendulum.t s = INR 1000 * dt.
Proof.
  destruct (pendulum_swing_is_bounded Samples.pendulum 1000)
    as (s & Ht & Htime & _).
  - cbn; lra.
  - exists s. split; [exact Ht | exact Htime].
Defined.

Lemma spring_ticks_invariant (p : Spring.Params) (n : nat) (s : Spring.State) :
  Spring.m p <> 0 -> Spring.running s = true ->
  exists s',
    Spring.ticks p n s = Some s' /\
    Spring.running s' = true /\
    Spring.t s' = Spring.t s + INR n * dt /\
    Spring.energy p s' = Spring.energy p s.
Proof.
  intros Hm Hrun. induction n as [| n (s1 & Ht & Hr & Htime & Hen)].
  - exists s. cbn [Spring.ticks INR]. repeat split; try assumption. lra.
  - cbn [Spring.ticks]. rewrite Ht. cbn [bind].
    unfold Spring.step. rewrite Hr, (jsdiv_nz _ _ Hm). cbn [bind].
    eexists. split; [reflexivity |].
    cbn [Spring.running Spring.t]. split; [reflexivity |]. split.
    + rewrite Htime, S_INR. lra.
    + rewrite <- Hen. unfold Spring.energy. cbn [Spring.v Spring.x].
      apply (euler_step_invariant (Spring.k p / Spring.m p) dt
                                  (Spring.x s1) (Spring.v s1)).
Qed.

(** X9. A spring of non-zero mass ticks for ever: after [n] ticks its
    clock reads [n * 0.016] and the form
    [v^2 + (k/m) x^2 - (k/m) dt v x] still has its first value
    [(k/m) x0^2]; hence, for [k/m > 0], the displacement never leaves
    [(1 - (k/m) dt^2 / 4) x^2 <= x0^2]. *)
Theorem spring_stretch_is_bounded (p : Spring.Params) (n : nat) :
  Spring.m p <> 0 ->
  let kk := Spring.k p / Spring.m p in
  exists s,
    Spring.ticks p n (Spring.init p) = Some s /\
    Spring.t s = INR n * dt /\
    Spring.energy p s = kk * (Spring.x0 p * Spring.x0 p) /\
    (0 < kk ->
     (1 - kk * (dt * dt) / 4) * (Spring.x s * Spring.x s)
     <= Spring.x0 p * Spring.x0 p).
Proof.
  intros Hm kk.
  destruct (spring_ticks_invariant p n (Spring.init p) Hm eq_refl)
    as (s & Ht & _ & Htime & Hen).
  assert (Hen0 : Spring.energy p s = kk * (Spring.x0 p * Spring.x0 p)).
  { rewrite Hen. unfold Spring.energy, Spring.init, kk.
    cbn [Spring.v Spring.x]. ring. }
  exists s. split; [exact Ht |]. split.
  { rewrite Htime. cbn [Spring.init Spring.t]. lra. }
  split; [exact Hen0 |].
  intros Hk.
  pose proof (euler_form_bound kk dt (Spring.x s) (Spring.v s)) as Hb.
  unfold Spring.energy in Hen0. fold kk in Hen0. rewrite Hen0 in Hb.
  apply (Rmult_le_reg_l kk); [exact Hk |]. lra.
Qed.

Lemma spring_stretch_is_bounded_witness :
  exists s,
    Spring.ticks Samples.spring 1000 (Spring.init Samples.spring) = Some s /\
    Spring.t s = INR 1000 * dt.
Proof.
  destruct (spring_stretch_is_bounded Samples.spring 1000)
    as (s & Ht & Htime & _).
  - cbn; lra.
  - exists s. split; [exact Ht | exact Htime].
Defined.

(** X10. The oscillators tick exactly when their divisor is not zero: a
    pendulum of length [0] or a spring of mass [0] has no finite state
    after its first tick, nor after any later one. *)
Theorem oscillators_need_a_divisor :
  (forall p n,
     (exists s, Pendulum.ticks p (S n) (Pendulum.init p) = Some s)
     <-> Pendulum.length p <> 0) /\
  (forall p n,
     (exists s, Spring.ticks p (S n) (Spring.init p) = Some s)
     <-> Spring.m p <> 0).
Proof.
  split; intros p n; split.
  - intros [s Hs] HL. revert s Hs. induction n as [| n IH]; intros s Hs.
    + cbn in Hs. unfold Pendulum.step in Hs. cbn in Hs.
      rewrite HL, jsdiv_zero in Hs. discriminate.
    + cbn [Pendulum.ticks] in Hs.
      destruct (Pendulum.ticks p n (Pendulum.init p)) as [s1 |] eqn:E1.
      * cbn [bind] in Hs.
        destruct (Pendulum.step p dt s1) as [s2 |] eqn:E2; [| discriminate].
        apply (IH s2). cbn [Pendulum.ticks]. rewrite E1. exact E2.
      * discriminate.
  - intros HL.
    destruct (pendulum_ticks_invariant p (S n) (Pendulum.init p) HL eq_refl)
      as (s & Ht & _). now exists s.
  - intros [s Hs] HL. revert s Hs. induction n as [| n IH]; intros s Hs.
    + cbn in Hs. unfold Spring.step in Hs. cbn in Hs.
      rewrite HL, jsdiv_zero in Hs. discriminate.
    + cbn [Spring.ticks] in Hs.
      destruct (Spring.ticks p n (Spring.init p)) as [s1 |] eqn:E1.
      * cbn [bind] in Hs.
        destruct (Spring.step p dt s1) as [s2 |] eqn:E2; [| discriminate].
        apply (IH s2). cbn [Spring.ticks]. rewrite E1. exact E2.
      * discriminate.
  - intros Hm.
    destruct (spring_ticks_invariant p (S n) (Spring.init p) Hm eq_refl)
      as (s & Ht & _). now exists s.
Qed.

(** ** The projectile *)

Lemma projectile_ticks_running (n : nat) (s : Projectile.State) :
  Projectile.running s = true ->
  Projectile.running (Projectile.ticks n s) = true /\
  Projectile.t (Projectile.ticks n s) = Projectile.t s + INR n * dt /\
  Projectile.requested (Projectile.ticks n s) = (Projectile.requested s + n)%nat.
Proof.
  intros Hrun. induction n as [| n (Hr & Ht & Hq)].
  - cbn [Projectile.ticks INR]. repeat split; [assumption | lra | lia].
  - cbn [Projectile.ticks]. unfold Projectile.step. rewrite Hr.
    cbn [Projectile.running Projectile.t Projectile.requested].
    repeat split; [rewrite Ht, S_INR; lra | lia].
Qed.

(** X11. The clock of a projectile: [n] ticks of a fresh session bring
    it to [t = n * 0.016]; once paused, no number of ticks moves it or
    queues a frame; and [reset()] puts the clock back to [0] without
    resuming a paused session. *)
Theorem projectile_clock (n k : nat) :
  Projectile.t (Projectile.ticks n Projectile.init) = INR n * dt /\
  Projectile.ticks k (Projectile.pause (Projectile.ticks n Projectile.init))
  = Projectile.pause (Projectile.ticks n Projectile.init) /\
  Projectile.ticks k (Projectile.reset
                        (Projectile.pause (Projectile.ticks n Projectile.init)))
  = Projectile.mkState 0 false (S n).
Proof.
  destruct (projectile_ticks_running n Projectile.init eq_refl) as (Hr & Ht & Hq).
  split; [rewrite Ht; cbn; lra |].
  assert (Hstop : forall s, Projectile.running s = false ->
                            Projectile.ticks k s = s).
  { intros s Hs. induction k as [| k IH]; [reflexivity |].
    cbn [Projectile.ticks]. rewrite IH. unfold Projectile.step. now rewrite Hs. }
  split; [apply Hstop; reflexivity |].
  rewrite Hstop by reflexivity.
  unfold Projectile.reset, Projectile.pause.
  cbn [Projectile.running Projectile.requested]. rewrite Hq. reflexivity.
Qed.

(** X12. The chart and the simulation describe one flight: for a
    non-zero speed and angle and [g = 9.81], at the chart's time of
    flight [T] the simulated projectile is back at height [0] and at the
    chart's range, and at [T/2] its vertical velocity is [0] and its
    height the chart's maximum height. *)
Theorem chart_matches_flight (p : Projectile.Params) (run : bool) (req : nat) :
  Projectile.speed p <> 0 -> Projectile.angle p <> 0 -> Projectile.g p = 9.81 ->
  let qy := Chart.mkQuery (Some (Projectile.speed p)) (Some (Projectile.angle p))
                          None None None None None
                          None None None None None None None in
  let landing := Projectile.mkState (Chart.proj_T qy) run req in
  let apex := Projectile.mkState (Chart.proj_T qy / 2) run req in
  Projectile.posY p landing = 0 /\
  Projectile.posX p landing = Chart.proj_range qy /\
  Projectile.vy p apex = 0 /\
  Projectile.posY p apex = Chart.proj_height qy.
Proof.
  intros Hu Ha Hg qy landing apex.
  assert (Eu : Chart.proj_u qy = Projectile.speed p).
  { unfold Chart.proj_u, qy. cbn [Chart.speed]. now apply js_or_nonzero. }
  assert (Ea : Chart.proj_a qy = Projectile.a p).
  { unfold Chart.proj_a, Projectile.a, qy. cbn [Chart.angle].
    now rewrite js_or_nonzero. }
  unfold Projectile.posY, Projectile.posX, Projectile.vy, Projectile.vy0,
    Projectile.vx, landing, apex, Chart.proj_T, Chart.proj_range,
    Chart.proj_height, Chart.proj_g.
  cbn [Projectile.t]. rewrite Eu, Ea, Hg, sin_2a.
  replace 9.81 with (981 / 100) by lra. replace 0.5 with (1 / 2) by lra.
  repeat split; field.
Qed.

Lemma chart_matches_flight_witness :
  Projectile.posY Samples.projectile
    (Projectile.mkState (Chart.proj_T (Samples.projectile_query 45)) true 1) = 0.
Proof.
  destruct (chart_matches_flight Samples.projectile true 1) as (H & _).
  - cbn; lra.
  - cbn; lra.
  - reflexivity.
  - exact H.
Defined.

(** X13. The plotted vertical velocity is antisymmetric about the middle
    of the flight: sample [i] and sample [60 - i] are opposite, the
    first sample is the launch value [u sin a] and the last its
    opposite; the series has 61 samples. *)
Theorem chart_vy_antisymmetric (qy : Chart.Query) (i : nat) :
  (i <= 60)%nat ->
  Chart.proj_vy qy i + Chart.proj_vy qy (60 - i) = 0 /\
  Chart.proj_vy qy 0 = Chart.proj_u qy * sin (Chart.proj_a qy) /\
  Chart.proj_vy qy 60 = - (Chart.proj_u qy * sin (Chart.proj_a qy)) /\
  List.length (Chart.proj_series qy) = 61%nat.
Proof.
  intros Hi.
  assert (H60 : INR 60 = 60) by (rewrite INR_IZR_INZ; reflexivity).
  unfold Chart.proj_vy, Chart.proj_T, Chart.proj_g, Chart.proj_series.
  rewrite minus_INR by exact Hi. rewrite H60. cbn [INR].
  replace 9.81 with (981 / 100) by lra.
  split; [field |]. split; [field |]. split; [field |].
  now rewrite length_map, length_seq.
Qed.

Lemma chart_vy_antisymmetric_witness :
  Chart.proj_vy Chart.empty 20 + Chart.proj_vy Chart.empty (60 - 20) = 0.
Proof.
  destruct (chart_vy_antisymmetric Chart.empty 20) as (H & _).
  - lia.
  - exact H.
Defined.

(** ** The circle *)

Lemma point_on_circle (c : Canvas) (p : Circular.Params) (ang : R) :
  Circular.on_circle c p (Circular.point c p ang).
Proof.
  unfold Circular.on_circle, Circular.point. cbn [fst snd].
  pose proof (sin2_cos2 ang) as H. unfold Rsqr in H.
  transitivity (Circular.r c p * Circular.r c p * (sin ang * sin ang + cos ang * cos ang));
    [ring | rewrite H; ring].
Qed.

Lemma push_keeps (P : Circular.Point -> Prop) (pt : Circular.Point)
      (tr : list Circular.Point) :
  P pt -> Forall P tr -> Forall P (Circular.push pt tr).
Proof.
  intros Hpt Htr. unfold Circular.push.
  assert (Hall : Forall P (tr ++ [pt])).
  { apply Forall_app. split; [exact Htr | now constructor]. }
  destruct (Circular.maxTrace <? List.length (tr ++ [pt]))%nat; [| exact Hall].
  destruct (tr ++ [pt]) as [| q rest]; [constructor |].
  cbn [tl]. now inversion Hall.
Qed.

(** X14. Whatever is done to a circular session (ticks, start, pause,
    reset), every point of its trace lies on the guide circle, the
    circle of radius [r] about the centre of the canvas; [r] is never
    below 20, and on a canvas of the page (at least 300 by 360) a radius
    between 20 and 110 is drawn as given. *)
Theorem trace_stays_on_circle (c : Canvas) (p : Circular.Params) :
  (forall evs,
     Forall (Circular.on_circle c p)
            (Circular.trace (Circular.run c p evs Circular.init))) /\
  20 <= Circular.r c p /\
  (forall cw ch,
     20 <= Circular.radius p <= 110 ->
     Circular.r (resizeCanvas cw ch) p = Circular.radius p).
Proof.
  split; [| split].
  - assert (Hrun : forall evs s,
               Forall (Circular.on_circle c p) (Circular.trace s) ->
               Forall (Circular.on_circle c p)
                      (Circular.trace (Circular.run c p evs s))).
    { induction evs as [| ev evs IH]; intros s Hs; [exact Hs |].
      cbn [Circular.run fold_left]. apply IH.
      destruct ev; cbn [Circular.apply].
      - unfold Circular.step. destruct (Circular.running s); [| exact Hs].
        cbn [Circular.draw Circular.trace Circular.angle].
        apply push_keeps; [apply point_on_circle | exact Hs].
      - exact Hs.
      - exact Hs.
      - unfold Circular.reset, Circular.draw. cbn [Circular.trace Circular.angle].
        apply push_keeps; [apply point_on_circle | constructor]. }
    intros evs. apply Hrun. constructor.
  - unfold Circular.r. apply Rmax_l.
  - intros cw ch Hrad. unfold Circular.r, resizeCanvas. cbn [width height].
    assert (H1 : 300 <= Rmax 300 (cw - 24)) by apply Rmax_l.
    assert (H2 : 360 <= Rmax 360 (ch - 24)) by apply Rmax_l.
    set (W := Rmax 300 (cw - 24)) in *. set (H := Rmax 360 (ch - 24)) in *.
    assert (H3 : 300 <= Rmin W H) by (apply Rmin_glb; lra).
    rewrite Rmin_right by lra. apply Rmax_right. lra.
Qed.

Lemma velocity_speed (c : Canvas) (p : Circular.Params) (ang : R) :
  hypot (fst (Circular.velocity c p ang)) (snd (Circular.velocity c p ang))
  = Rabs (Circular.angularSpeed p) * Circular.r c p.
Proof.
  assert (Hr : 20 <= Circular.r c p) by (unfold Circular.r; apply Rmax_l).
  apply hypot_of_sqr.
  - apply Rmult_le_pos; [apply Rabs_pos | lra].
  - unfold Circular.velocity. cbn [fst snd].
    pose proof (sin2_cos2 ang) as H. unfold Rsqr in H.
    set (w := Circular.angularSpeed p). set (rr := Circular.r c p).
    replace (Rabs w * rr * (Rabs w * rr)) with (Rabs w * Rabs w * (rr * rr)) by ring.
    replace (Rabs w * Rabs w) with (w * w)
      by (unfold Rabs; destruct (Rcase_abs w); ring).
    transitivity (w * w * (rr * rr) * (sin ang * sin ang + cos ang * cos ang));
      [rewrite H; ring | ring].
Qed.

(** X15. The tangent arrow of the particle: its speed is
    [|angularSpeed| * r]; with [angularSpeed = 0] the direction is [0/0]
    and there is no arrow, and otherwise the arrow is as long as the
    smaller of 40 and the speed and at right angles to the radius. *)
Theorem tangent_arrow (c : Canvas) (p : Circular.Params) (ang : R) :
  (Circular.arrow c p ang = None <-> Circular.angularSpeed p = 0) /\
  (forall ax ay,
     Circular.arrow c p ang = Some (ax, ay) ->
     hypot ax ay = Rmin 40 (Rabs (Circular.angularSpeed p) * Circular.r c p) /\
     ax * (fst (Circular.point c p ang) - width c / 2)
     + ay * (snd (Circular.point c p ang) - height c / 2) = 0).
Proof.
  assert (Hr : 20 <= Circular.r c p) by (unfold Circular.r; apply Rmax_l).
  pose proof (velocity_speed c p ang) as Hsp.
  unfold Circular.arrow. rewrite Hsp.
  set (w := Circular.angularSpeed p) in *. set (rr := Circular.r c p) in *.
  destruct (Req_dec_T w 0) as [Hw | Hw].
  - assert (Hz : Rabs w * rr = 0) by (rewrite Hw, Rabs_R0; ring).
    rewrite Hz, !jsdiv_zero. cbn [bind].
    split; [split; [intros _; exact Hw | reflexivity] | intros ax ay [=]].
  - assert (Hpos : 0 < Rabs w * rr).
    { apply Rmult_lt_0_compat; [now apply Rabs_pos_lt | lra]. }
    assert (Hnz : Rabs w * rr <> 0) by lra.
    rewrite !(jsdiv_nz _ _ Hnz). cbn [bind].
    split; [split; [intros [=] | intros E; contradiction] |].
    intros ax ay E. injection E as <- <-.
    set (len := Rmin 40 (Rabs w * rr)).
    assert (Hlen : 0 <= len) by (unfold len; apply Rmin_glb; lra).
    pose proof (hypot_sqr (fst (Circular.velocity c p ang))
                          (snd (Circular.velocity c p ang))) as Hsq.
    rewrite Hsp in Hsq. unfold Circular.velocity in *.
    cbn [fst snd] in *. fold w rr in Hsq |- *.
    set (vx := - w * rr * sin ang) in *.
    set (vy := w * rr * cos ang) in *.
    split.
    + apply hypot_of_sqr; [exact Hlen |].
      assert (Hboth : rr <> 0 /\ Rabs w <> 0)
        by (split; [lra | now apply Rabs_no_R0]).
      transitivity (len * len * ((vx * vx + vy * vy) / (Rabs w * rr * (Rabs w * rr))));
        [| field; exact Hboth].
      rewrite <- Hsq. field. exact Hboth.
    + unfold vx, vy, Circular.point. cbn [fst snd].
      fold w rr. field. split; [lra | now apply Rabs_no_R0].
Qed.

(** ** The field *)

Lemma js_or_never_zero (v : option R) (d : R) : d <> 0 -> js_or v d <> 0.
Proof.
  intros Hd. unfold js_or. destruct v as [x |]; [| exact Hd].
  destruct (Req_dec_T x 0); assumption.
Qed.

Lemma field_from (chs : list Electric.Charge) (gx gy : R) (E : R * R) :
  fold_left (Electric.accumulate gx gy) chs E
  = (fst E + fst (Electric.field chs gx gy), snd E + snd (Electric.field chs gx gy)).
Proof.
  unfold Electric.field. revert E.
  induction chs as [| ch chs IH]; intros [Ex Ey]; cbn [fold_left fst snd].
  - f_equal; lra.
  - rewrite IH. rewrite (IH (Electric.accumulate gx gy (0, 0) ch)).
    rewrite !accumulate_contribution. cbn [fst snd]. f_equal; lra.
Qed.

(** X16. Superposition: the field of two lists of charges put together
    is the sum of their fields, the field of no charge is zero, and
    multiplying every charge by [k] multiplies the field by [k]. *)
Theorem field_is_additive (gx gy : R) :
  Electric.field [] gx gy = (0, 0) /\
  (forall chs1 chs2,
     Electric.field (chs1 ++ chs2) gx gy
     = (fst (Electric.field chs1 gx gy) + fst (Electric.field chs2 gx gy),
        snd (Electric.field chs1 gx gy) + snd (Electric.field chs2 gx gy))) /\
  (forall k chs,
     Electric.field
       (map (fun ch => Electric.mkCharge (Electric.x ch) (Electric.y ch)
                                         (k * Electric.q ch)) chs) gx gy
     = (k * fst (Electric.field chs gx gy), k * snd (Electric.field chs gx gy))).
Proof.
  split; [reflexivity |]. split.
  - intros chs1 chs2. unfold Electric.field at 1.
    rewrite fold_left_app. fold (Electric.field chs1 gx gy). apply field_from.
  - intros k chs. induction chs as [| ch chs IH].
    + cbn. f_equal; lra.
    + cbn [map]. unfold Electric.field in *. cbn [fold_left].
      rewrite field_from. rewrite (field_from chs).
      unfold Electric.field. rewrite IH.
      unfold Electric.accumulate. cbn [Electric.x Electric.y Electric.q fst snd].
      destruct (Rlt_dec _ 16); cbn [fst snd]; f_equal; field_simplify_eq; try lra.
      all: unfold Electric.pow15; apply Rgt_not_eq, exp_pos.
Qed.

(** X17. A dipole: with [q1 = q] and [q2 = -q], [q <> 0], on a canvas at
    least 24 pixels wide, the field half way between the two charges has
    no vertical part, and its horizontal part is [2 q / (0.17 W)^2]: it
    points from the positive charge to the negative one and is not
    zero. *)
Theorem dipole_midpoint_field (c : Canvas) (qq : R) :
  24 <= width c -> qq <> 0 ->
  let p := Electric.mkParams (Some qq) (Some (- qq)) in
  let E := Electric.field (Electric.charges (Electric.init c p))
                          (width c * 0.5) (height c * 0.5) in
  snd E = 0 /\
  fst E = 2 * qq / (0.17 * width c * (0.17 * width c)) /\
  fst E <> 0.
Proof.
  intros HW Hq p E.
  set (a := 0.17 * width c).
  assert (Ha : 4 <= a) by (unfold a; lra).
  assert (HE : E = (2 * qq / (a * a), 0)).
  { unfold E, Electric.init, Electric.start, Electric.timer, Electric.placeCharges, p.
    cbn [Electric.running Electric.charges Electric.q1 Electric.q2].
    rewrite !js_or_nonzero by lra.
    unfold Electric.field. cbn [fold_left].
    rewrite !accumulate_contribution. cbn [fst snd].
    unfold FieldSpec.contribution. cbn [Electric.x Electric.y Electric.q].
    replace (width c * 0.5 - width c * 0.33) with a by (unfold a; lra).
    replace (width c * 0.5 - width c * 0.67) with (- a) by (unfold a; lra).
    replace (height c * 0.5 - height c * 0.5) with 0 by lra.
    rewrite (hypot_of_sqr a 0 a) by lra.
    rewrite (hypot_of_sqr (- a) 0 a) by lra.
    destruct (Rlt_dec (a * a) 16); [nra |].
    cbn [fst snd]. f_equal; field; lra. }
  rewrite HE. cbn [fst snd]. split; [reflexivity |]. split; [reflexivity |].
  intros H0.
  assert (Haa : 0 < a * a) by nra.
  apply (f_equal (fun z => z * (a * a))) in H0.
  field_simplify in H0; lra.
Qed.

Lemma dipole_midpoint_field_witness :
  snd (Electric.field
         (Electric.charges
            (Electric.init Samples.canvas (Electric.mkParams (Some 3) (Some (- 3)))))
         (width Samples.canvas * 0.5) (height Samples.canvas * 0.5)) = 0.
Proof.
  destruct (dipole_midpoint_field Samples.canvas 3) as (H & _).
  - cbn; lra.
  - lra.
  - exact H.
Defined.

(** X18. The chart of the field cannot tell the signs of the charges:
    changing the sign of either leaves every sample as it is; and every
    sample is strictly positive unless both charges are zero. *)
Theorem chart_field_ignores_signs (qa qb : R) (i : nat) :
  Chart.Emag (- qa) qb i = Chart.Emag qa qb i /\
  Chart.Emag qa (- qb) i = Chart.Emag qa qb i /\
  0 <= Chart.Emag qa qb i /\
  (Chart.Emag qa qb i = 0 <-> qa = 0 /\ qb = 0).
Proof.
  rewrite !Emag_probe. unfold FieldSpec.probe. rewrite !Rabs_Ropp.
  destruct (probe_clear_of_charges i) as [H1 H2].
  set (ra := Rabs (Chart.probe_x i - Chart.cx1)) in *.
  set (rb := Rabs (Chart.probe_x i - Chart.cx2)) in *.
  assert (Ha : 0 < / (ra * ra)) by (apply Rinv_0_lt_compat; nra).
  assert (Hb : 0 < / (rb * rb)) by (apply Rinv_0_lt_compat; nra).
  pose proof (Rabs_pos qa) as Pa. pose proof (Rabs_pos qb) as Pb.
  assert (Ta : 0 <= Rabs qa / (ra * ra)) by (apply Rmult_le_pos; lra).
  assert (Tb : 0 <= Rabs qb / (rb * rb)) by (apply Rmult_le_pos; lra).
  split; [reflexivity |]. split; [reflexivity |]. split; [lra |]. split.
  - intros Hsum.
    assert (Za : Rabs qa / (ra * ra) = 0) by lra.
    assert (Zb : Rabs qb / (rb * rb) = 0) by lra.
    unfold Rdiv in Za, Zb.
    apply Rmult_integral in Za. apply Rmult_integral in Zb.
    split.
    + destruct Za as [Za | Za]; [| lra].
      destruct (Req_dec_T qa 0) as [E | N]; [exact E |].
      apply Rabs_no_R0 in N. contradiction.
    + destruct Zb as [Zb | Zb]; [| lra].
      destruct (Req_dec_T qb 0) as [E | N]; [exact E |].
      apply Rabs_no_R0 in N. contradiction.
  - intros [-> ->]. rewrite Rabs_R0. lra.
Qed.

(** X19. The charges as placed: both at mid height, at 33% and 67% of
    the width; neither is ever zero, a [q1] or [q2] that is missing or
    [0] being replaced by [3] or [-3], and any other value kept. *)
Theorem placed_charges (c : Canvas) (p : Electric.Params) :
  exists c1 c2,
    Electric.charges (Electric.init c p) = [c1; c2] /\
    Electric.charges (Electric.reset c p (Electric.init c p)) = [c1; c2] /\
    Electric.y c1 = Electric.y c2 /\
    Electric.x c2 - Electric.x c1 = 0.34 * width c /\
    Electric.q c1 <> 0 /\ Electric.q c2 <> 0 /\
    (Electric.q1 p = None \/ Electric.q1 p = Some 0 -> Electric.q c1 = 3) /\
    (Electric.q2 p = None \/ Electric.q2 p = Some 0 -> Electric.q c2 = -3) /\
    (forall v, v <> 0 -> Electric.q1 p = Some v -> Electric.q c1 = v) /\
    (forall v, v <> 0 -> Electric.q2 p = Some v -> Electric.q c2 = v).
Proof.
  eexists; eexists. split; [reflexivity |]. split; [reflexivity |].
  cbn [Electric.x Electric.y Electric.q].
  split; [reflexivity |]. split; [lra |].
  split; [apply js_or_never_zero; lra |].
  split; [apply js_or_never_zero; lra |].
  split; [intros [-> | ->]; [reflexivity | apply js_or_zero] |].
  split; [intros [-> | ->]; [reflexivity | apply js_or_zero] |].
  split; intros v Hv ->; now apply js_or_nonzero.
Qed.

(** ** Fresh sessions on the canvas of the page *)

(** X20. On every canvas that [resizeCanvas] makes, a fresh collision
    with radii below 75 has both balls within the walls and apart: the
    wall tests and the resolution leave them as placed. *)
Theorem fresh_collision_is_clear (cw ch : R) (p : Collision.Params) :
  js_or (Collision.r1 p) 20 < 75 -> js_or (Collision.r2 p) 20 < 75 ->
  let c := resizeCanvas cw ch in
  let b1 := fst (Collision.placeInitial c p) in
  let b2 := snd (Collision.placeInitial c p) in
  300 <= width c /\ 360 <= height c /\
  Collision.bounce c b1 = b1 /\ Collision.bounce c b2 = b2 /\
  Collision.resolve p b1 b2 = Some (b1, b2).
Proof.
  intros H1 H2 c b1 b2.
  assert (HW : 300 <= width c) by apply Rmax_l.
  assert (HH : 360 <= height c) by apply Rmax_l.
  split; [exact HW |]. split; [exact HH |].
  unfold b1, b2, Collision.placeInitial. cbn [fst snd].
  split; [| split].
  - apply bounce_inside; cbn [Collision.x Collision.y Collision.r]; lra.
  - apply bounce_inside; cbn [Collision.x Collision.y Collision.r]; lra.
  - apply resolve_apart. unfold Collision.centre_dist.
    cbn [Collision.x Collision.y Collision.r].
    rewrite (hypot_of_sqr _ _ (width c * 0.5)); lra.
Qed.

Lemma fresh_collision_is_clear_witness :
  Collision.resolve Samples.collision
    (fst (Collision.placeInitial (resizeCanvas 344 384) Samples.collision))
    (snd (Collision.placeInitial (resizeCanvas 344 384) Samples.collision))
  = Some (Collision.placeInitial (resizeCanvas 344 384) Samples.collision).
Proof.
  destruct (fresh_collision_is_clear 344 384 Samples.collision)
    as (_ & _ & _ & _ & H).
  - cbn [Samples.collision Collision.r1]. rewrite js_or_nonzero; lra.
  - cbn [Samples.collision Collision.r2]. rewrite js_or_nonzero; lra.
  - rewrite H. now destruct (Collision.placeInitial _ _).
Defined.

(** ** The chart of the circular motion *)

(** X21. The chart of the circular motion covers one full turn whatever
    the query: [omega * T = 2 PI], the first and the last of its 121
    samples are [radius] and the middle one is [-radius]. *)
Theorem chart_circle_is_one_turn (qy : Chart.Query) :
  js_or (Chart.angularSpeed qy) 1.2 * Chart.circ_T qy = 2 * PI /\
  Chart.circ_x qy 0 = js_or (Chart.radius qy) 100 /\
  Chart.circ_x qy 60 = - js_or (Chart.radius qy) 100 /\
  Chart.circ_x qy 120 = js_or (Chart.radius qy) 100.
Proof.
  assert (Hw : js_or (Chart.angularSpeed qy) 1.2 <> 0)
    by (apply js_or_never_zero; lra).
  assert (H60 : INR 60 = 60) by (rewrite INR_IZR_INZ; reflexivity).
  assert (H120 : INR 120 = 120) by (rewrite INR_IZR_INZ; reflexivity).
  unfold Chart.circ_x, Chart.circ_T.
  set (w := js_or (Chart.angularSpeed qy) 1.2) in *.
  set (rad := js_or (Chart.radius qy) 100).
  split; [field; exact Hw |]. split; [| split].
  - replace (w * (INR 0 * (2 * PI / w / 120))) with 0 by (cbn [INR]; field; exact Hw).
    rewrite cos_0. ring.
  - replace (w * (INR 60 * (2 * PI / w / 120))) with PI by (rewrite H60; field; exact Hw).
    rewrite cos_PI. ring.
  - replace (w * (INR 120 * (2 * PI / w / 120))) with (2 * PI)
      by (rewrite H120; field; exact Hw).
    rewrite cos_2PI. ring.
Qed.

(** ** Free flight *)

(** X22. Between the walls and out of reach of each other, the balls
    only drift: a tick adds [v * dt] to each position and changes no
    velocity, radius or mass. *)
Theorem tick_is_a_drift (c : Canvas) (p : Collision.Params) (d : R)
        (b1 b2 : Collision.Ball) :
  Collision.inside c (Collision.integrate d b1) ->
  Collision.inside c (Collision.integrate d b2) ->
  Collision.r b1 + Collision.r b2
  < Collision.centre_dist (Collision.integrate d b1) (Collision.integrate d b2) ->
  Collision.update c p d b1 b2
  = Some (Collision.mkBall (Collision.x b1 + Collision.vx b1 * d)
                           (Collision.y b1 + Collision.vy b1 * d)
                           (Collision.vx b1) (Collision.vy b1)
                           (Collision.r b1) (Collision.m b1),
          Collision.mkBall (Collision.x b2 + Collision.vx b2 * d)
                           (Collision.y b2 + Collision.vy b2 * d)
                           (Collision.vx b2) (Collision.vy b2)
                           (Collision.r b2) (Collision.m b2)).
Proof.
  intros [[A1 A2] [A3 A4]] [[B1 B2] [B3 B4]] Hfar.
  unfold Collision.update.
  rewrite !bounce_inside by lra.
  rewrite resolve_apart by exact Hfar. reflexivity.
Qed.

Lemma tick_is_a_drift_witness :
  exists b1' b2',
    Collision.update Samples.canvas Samples.collision dt
      (Collision.mkBall 80 180 60 0 20 2) (Collision.mkBall 240 180 (-20) 0 20 1)
    = Some (b1', b2') /\
    Collision.x b1' = 80 + 60 * dt /\ Collision.x b2' = 240 + -20 * dt.
Proof.
  eexists; eexists. split.
  - apply (tick_is_a_drift Samples.canvas Samples.collision dt
             (Collision.mkBall 80 180 60 0 20 2)
             (Collision.mkBall 240 180 (-20) 0 20 1)).
    + unfold Collision.inside, dt; cbn; lra.
    + unfold Collision.inside, dt; cbn; lra.
    + unfold Collision.centre_dist.
      rewrite (hypot_of_sqr _ _ 158.72); unfold dt; cbn; lra.
  - split; reflexivity.
Defined.
